(** * light-switch-esp32: the snap detector, its relay and its I2S device

    A shallow embedding of [firmware/Relay.h], [firmware/sketch_sep23a/I2SDevice.h]
    and [firmware/sketch_sep23a/sound.h].

    Conventions of the embedding.
    - C++ integers are [Z]; where a conversion narrows (the [int16_t] sample)
      the wrap-around is written out.
    - [float] values are rationals ([Q]).  Every value the sketch compares is
      a finite binary32 number, hence a rational.  The float operations of
      the sketch itself are the cast of an [int16_t], the product
      [peakIndex * (16000.0 / 512)] and the comparisons; module [Binary32]
      reads them in binary32 and the last sections prove that the casts and
      the product are exact and that scan and classifier give the same
      answers on floats as on the rationals they stand for.
    - Calls into the Arduino core, the I2S driver and the arduinoFFT object
      are effects: they are recorded, with the time of the call, in the list
      a computation returns.  Time is the [millis()] time line in
      milliseconds, unwrapped. *)

From Stdlib Require Import String ZArith QArith Qpower Qabs Lqa List Bool Lia Sorted.
From Stdlib Require Import Floats.SpecFloat.
Import ListNotations.
Local Open Scope string_scope.
Local Open Scope list_scope.
Local Open Scope Z_scope.

(* ------------------------------------------------------------------ *)
(** ** The hardware side: levels, calls, and the effect monad          *)
(* ------------------------------------------------------------------ *)

Inductive level : Type := LOW | HIGH.

(** The calls that leave the sketch. *)
Inductive call : Type :=
| pinMode_OUTPUT (pin : Z)
| digitalWrite (pin : Z) (v : level)
| Serial_print (s : string)
| Serial_print_int (n : Z)
| Serial_println (s : string)
| Serial_printf_err (fmt : string) (err : Z)
| millis_call
| delay_call (ms : Z)
| Serial_begin (baud : Z)
| i2s_driver_install_call (port : Z)
| i2s_set_pin_call (port bck ws data_out data_in : Z)
| i2s_read_call (port size ticks : Z)
| i2s_write_call (port size ticks : Z)
| i2s_driver_uninstall_call (port : Z)
| FFT_windowing
| FFT_compute
| FFT_complexToMagnitude.

(** A timed call: the clock when it was made, and the call. *)
Definition event : Type := (Z * call)%type.

(** [Hw A]: a computation started at clock [t] returns its value, the clock
    when it ends and the calls it made, oldest first. *)
Definition Hw (A : Type) : Type := Z -> A * Z * list event.

Definition ret {A} (a : A) : Hw A := fun t => (a, t, []).

Definition bind {A B} (m : Hw A) (k : A -> Hw B) : Hw B :=
  fun t =>
    let '(a, t1, c1) := m t in
    let '(b, t2, c2) := k a t1 in
    (b, t2, c1 ++ c2).

Declare Scope hw_scope.
Delimit Scope hw_scope with hw.
Notation "x <- m ;; k" := (bind m (fun x => k))
  (at level 61, m at next level, right associativity) : hw_scope.
Notation "m ;; k" := (bind m (fun _ => k))
  (at level 61, right associativity) : hw_scope.
Local Open Scope hw_scope.

Definition emit (c : call) : Hw unit := fun t => (tt, t, [(t, c)]).

(** Time passing without a call (a blocking wait inside a driver, or
    computation). *)
Definition elapse (d : Z) : Hw unit := fun t => (tt, t + d, []).

Definition value {A} (r : A * Z * list event) : A := fst (fst r).
Definition clock_after {A} (r : A * Z * list event) : Z := snd (fst r).
Definition calls {A} (r : A * Z * list event) : list event := snd r.

(** [unsigned long millis()]: 32 bits on the ESP32. *)
Definition millis : Hw Z :=
  emit millis_call ;; (fun t => (t mod 2 ^ 32, t, [])).

(** [delay(ms)] blocks for [ms] milliseconds. *)
Definition delay (ms : Z) : Hw unit := emit (delay_call ms) ;; elapse ms.

(** The level a pin is driven to after a list of calls: the last
    [digitalWrite] to it, if any. *)
Fixpoint pin_level (p : Z) (cs : list event) : option level :=
  match cs with
  | [] => None
  | (_, c) :: rest =>
      match pin_level p rest with
      | Some v => Some v
      | None =>
          match c with
          | digitalWrite q v => if Z.eqb q p then Some v else None
          | _ => None
          end
      end
  end.

(** The times of the [digitalWrite] calls. *)
Fixpoint write_times (cs : list event) : list Z :=
  match cs with
  | [] => []
  | (t, digitalWrite _ _) :: rest => t :: write_times rest
  | _ :: rest => write_times rest
  end.


Definition is_fft (e : event) : bool :=
  match snd e with
  | FFT_windowing | FFT_compute | FFT_complexToMagnitude => true
  | _ => false
  end.

Definition is_i2s_read (e : event) : bool :=
  match snd e with
  | i2s_read_call _ _ _ => true
  | _ => false
  end.

(* ------------------------------------------------------------------ *)
(** ** Relay.h                                                         *)
(* ------------------------------------------------------------------ *)

Module Relay.

Record t : Type := mk {
  pin : Z;              (* uint8_t *)
  state : bool;
  invertLogic : bool
}.

(** [Relay(uint8_t relayPin, bool invert = false)] *)
Definition new (relayPin : Z) (invert : bool) : t :=
  {| pin := relayPin; state := false; invertLogic := invert |}.

Definition set_state (r : t) (s : bool) : t :=
  {| pin := pin r; state := s; invertLogic := invertLogic r |}.

Definition on (r : t) : Hw t :=
  let r := set_state r true in
  emit (digitalWrite (pin r) (if invertLogic r then LOW else HIGH)) ;;
  emit (Serial_print "[Relay] GPIO") ;;
  emit (Serial_print_int (pin r)) ;;
  emit (Serial_println " 已打开") ;;
  ret r.

Definition off (r : t) : Hw t :=
  let r := set_state r false in
  emit (digitalWrite (pin r) (if invertLogic r then HIGH else LOW)) ;;
  emit (Serial_print "[Relay] GPIO") ;;
  emit (Serial_print_int (pin r)) ;;
  emit (Serial_println " 已关闭") ;;
  ret r.

Definition begin (r : t) : Hw t :=
  emit (pinMode_OUTPUT (pin r)) ;;
  r <- off r ;;
  emit (Serial_print "[Relay] 初始化引脚 GPIO") ;;
  emit (Serial_print_int (pin r)) ;;
  emit (Serial_println (if invertLogic r then " (低电平触发)" else " (高电平触发)")) ;;
  ret r.

Definition toggle (r : t) : Hw t :=
  if state r then off r else on r.

Definition setState (r : t) (s : bool) : Hw t :=
  if s then on r else off r.

Definition getState (r : t) : bool := state r.

Definition getPin (r : t) : Z := pin r.

Definition pulse (r : t) (duration : Z) : Hw t :=
  r <- on r ;;
  delay duration ;;
  off r.

(** The level [on()] and [off()] drive the pin to for a recorded state. *)
Definition drive_level (r : t) (s : bool) : level :=
  if s then (if invertLogic r then LOW else HIGH)
  else (if invertLogic r then HIGH else LOW).

End Relay.

(* ------------------------------------------------------------------ *)
(** ** I2SDevice.h                                                     *)
(* ------------------------------------------------------------------ *)

Definition ESP_OK : Z := 0.
Definition portMAX_DELAY : Z := 2 ^ 32 - 1.
Definition I2S_NUM_0 : Z := 0.

(** What the driver does on one [i2s_read]/[i2s_write]: its status, the
    count it stores through the out-parameter (if it stores one), the
    contents of the caller's buffer when it returns, and how long it
    blocked. *)
Record i2s_answer : Type := {
  ans_ret : Z;                  (* esp_err_t *)
  ans_bytes : option Z;         (* stored into *bytes_read / *bytes_written *)
  ans_data : list Z;            (* the buffer after the call *)
  ans_wait : Z                  (* ms spent blocked in the driver *)
}.

(** [i2s_read(port, buffer, size, &n, ticks)]: the status, what was stored
    through [&n] (if anything) and the buffer after the call. *)
Definition i2s_read (p size ticks : Z) (a : i2s_answer) : Hw (Z * option Z * list Z) :=
  emit (i2s_read_call p size ticks) ;;
  elapse (ans_wait a) ;;
  ret (ans_ret a, ans_bytes a, ans_data a).

Definition i2s_write (p size ticks : Z) (a : i2s_answer) : Hw (Z * option Z) :=
  emit (i2s_write_call p size ticks) ;;
  elapse (ans_wait a) ;;
  ret (ans_ret a, ans_bytes a).

(** A [size_t] local initialised to [n0] and passed as the out-parameter. *)
Definition stored (n0 : Z) (n : option Z) : Z :=
  match n with Some v => v | None => n0 end.

Module I2SDevice.

Inductive i2s_device_type_t : Type := DEVICE_MIC | DEVICE_SENSOR.

Record t : Type := mk {
  type : i2s_device_type_t;
  sample_rate : Z;
  channels : Z;
  bits_per_sample : Z;
  ws_pin : Z;
  sd_pin : Z;
  sck_pin : Z;
  port : Z;
  initialized : bool;
  rx_mode : bool
}.

Definition type_name (ty : i2s_device_type_t) : string :=
  match ty with
  | DEVICE_MIC => "麦克风"
  | DEVICE_SENSOR => "传感器"
  end.

(** The constructor. *)
Definition new (dev_type : i2s_device_type_t) (sr ch bps ws sd sck p : Z) : Hw t :=
  emit (Serial_print "[I2SDevice] 创建 ") ;;
  emit (Serial_print (type_name dev_type)) ;;
  emit (Serial_print " 实例 (采样率: ") ;;
  emit (Serial_print_int sr) ;;
  emit (Serial_println " Hz)") ;;
  ret {| type := dev_type; sample_rate := sr; channels := ch;
         bits_per_sample := bps; ws_pin := ws; sd_pin := sd; sck_pin := sck;
         port := p; initialized := false;
         rx_mode := match dev_type with
                    | DEVICE_MIC => true
                    | DEVICE_SENSOR => false
                    end |}.

(** [size_t read(uint8_t* buffer, size_t size, TickType_t ticks_to_wait)].
    Returns the byte count, the buffer and the device after the call. *)
Definition read (d : t) (buffer : list Z) (size ticks : Z) (a : i2s_answer)
  : Hw (Z * list Z * t) :=
  if negb (initialized d) then
    emit (Serial_println "[I2SDevice] 未初始化，无法读取") ;;
    ret (0, buffer, d)
  else if negb (rx_mode d) then
    emit (Serial_println "[I2SDevice] 非 RX 模式，无法读取") ;;
    ret (0, buffer, d)
  else
    r <- i2s_read (port d) size ticks a ;;
    let '(err, n, data) := r in
    let bytes_read := stored 0 n in
    (if negb (Z.eqb err ESP_OK)
     then emit (Serial_printf_err "[I2SDevice] 读取失败: %s\n" err)
     else ret tt) ;;
    ret (bytes_read, data, d).

Definition write (d : t) (size ticks : Z) (a : i2s_answer) : Hw (Z * t) :=
  if negb (initialized d) then
    emit (Serial_println "[I2SDevice] 未初始化，无法写入") ;;
    ret (0, d)
  else if rx_mode d then
    emit (Serial_println "[I2SDevice] RX 模式，无法写入") ;;
    ret (0, d)
  else
    r <- i2s_write (port d) size ticks a ;;
    let '(err, n) := r in
    let bytes_written := stored 0 n in
    (if negb (Z.eqb err ESP_OK)
     then emit (Serial_printf_err "[I2SDevice] 写入失败: %s\n" err)
     else ret tt) ;;
    ret (bytes_written, d).

Definition toggleMode (d : t) (to_rx : bool) : Hw t :=
  if initialized d then
    emit (Serial_println "[I2SDevice] 已初始化，无法切换模式（需重启）") ;;
    ret d
  else
    emit (Serial_print "[I2SDevice] 模式切换为 ") ;;
    emit (Serial_println (if to_rx then "RX (输入)" else "TX (输出)")) ;;
    ret {| type := type d; sample_rate := sample_rate d; channels := channels d;
           bits_per_sample := bits_per_sample d; ws_pin := ws_pin d;
           sd_pin := sd_pin d; sck_pin := sck_pin d; port := port d;
           initialized := initialized d; rx_mode := to_rx |}.

Definition set_initialized (d : t) (b : bool) : t :=
  {| type := type d; sample_rate := sample_rate d; channels := channels d;
     bits_per_sample := bits_per_sample d; ws_pin := ws_pin d;
     sd_pin := sd_pin d; sck_pin := sck_pin d; port := port d;
     initialized := b; rx_mode := rx_mode d |}.

Definition I2S_PIN_NO_CHANGE : Z := -1.

(** [bool begin()]; [install] and [set_pin] are the statuses the driver
    returns to the two calls. *)
Definition begin (d : t) (install set_pin : Z) : Hw (bool * t) :=
  if initialized d then
    emit (Serial_println "[I2SDevice] 已初始化，跳过") ;;
    ret (true, d)
  else
    emit (i2s_driver_install_call (port d)) ;;
    if negb (Z.eqb install ESP_OK) then
      emit (Serial_printf_err "[I2SDevice] 驱动安装失败: %s\n" install) ;;
      ret (false, d)
    else
      emit (i2s_set_pin_call (port d) (sck_pin d) (ws_pin d)
              (if rx_mode d then I2S_PIN_NO_CHANGE else sd_pin d)
              (if rx_mode d then sd_pin d else I2S_PIN_NO_CHANGE)) ;;
      if negb (Z.eqb set_pin ESP_OK) then
        emit (Serial_printf_err "[I2SDevice] 引脚设置失败: %s\n" set_pin) ;;
        ret (false, d)
      else
        emit (Serial_print "[I2SDevice] ") ;;
        emit (Serial_print (type_name (type d))) ;;
        emit (Serial_print " 初始化成功 (RX: ") ;;
        emit (Serial_print (if rx_mode d then "是" else "否")) ;;
        emit (Serial_print ", 声道: ") ;;
        emit (Serial_print_int (channels d)) ;;
        emit (Serial_println ")") ;;
        ret (true, set_initialized d true).

(** [void end()] *)
Definition end_ (d : t) : Hw t :=
  if negb (initialized d) then
    emit (Serial_println "[I2SDevice] 未初始化，无需清理") ;;
    ret d
  else
    emit (i2s_driver_uninstall_call (port d)) ;;
    emit (Serial_println "[I2SDevice] 资源清理完成") ;;
    ret (set_initialized d false).

Definition isInitialized (d : t) : bool := initialized d.
Definition isRxMode (d : t) : bool := rx_mode d.

End I2SDevice.

(* ------------------------------------------------------------------ *)
(** ** sound.h                                                         *)
(* ------------------------------------------------------------------ *)

(** The [ArduinoFFT<float>] object bound to the two global arrays.  Its three
    calls work in place on the pair (vReal, vImag); the library is not part
    of the sketch, so the three transforms are the fields of an interface. *)
Record ArduinoFFT : Type := {
  windowing : list Q * list Q -> list Q * list Q;
  compute : list Q * list Q -> list Q * list Q;
  complexToMagnitude : list Q * list Q -> list Q * list Q
}.

Module Sound.

Definition I2S_WS : Z := 9.
Definition I2S_SD : Z := 5.
Definition I2S_SCK : Z := 19.
Definition SAMPLE_RATE : Z := 16000.
Definition SAMPLES : nat := 512.
Definition I2S_PORT : Z := I2S_NUM_0.

(** The globals of the sketch. *)
Record globals : Type := {
  relay : Relay.t;
  vReal : list Q;            (* float vReal[SAMPLES] *)
  vImag : list Q;            (* float vImag[SAMPLES] *)
  lastSnapTime : Z;          (* unsigned long *)
  snapCount : Z              (* int *)
}.

(** Globals at start-up: [Relay relay(20)], zero-initialised arrays. *)
Definition boot : globals :=
  {| relay := Relay.new 20 false;
     vReal := repeat 0%Q SAMPLES;
     vImag := repeat 0%Q SAMPLES;
     lastSnapTime := 0;
     snapCount := 0 |}.

(** [void setup()].  The statuses of the two driver calls are not looked
    at. *)
Definition setup (g : globals) : Hw globals :=
  emit (Serial_begin 115200) ;;
  r <- Relay.begin (relay g) ;;
  r <- Relay.off r ;;
  emit (Serial_println "🎧 INMP441 Double Finger Snap Detector") ;;
  emit (i2s_driver_install_call I2S_PORT) ;;
  emit (i2s_set_pin_call I2S_PORT I2S_SCK I2S_WS (-1) I2S_SD) ;;
  ret {| relay := r; vReal := vReal g; vImag := vImag g;
         lastSnapTime := lastSnapTime g; snapCount := snapCount g |}.

(** What the surroundings contribute to one pass through [loop()]: the
    driver's answer to the read ([ans_data] is the local [int32_t
    buffer[SAMPLES]] when the call returns, whatever it then holds) and the
    time the processor spends on the frame. *)
Record cycle : Type := {
  rd : i2s_answer;
  cpu_ms : Z
}.

(** Conversion to [int16_t]: the low 16 bits, read as two's complement. *)
Definition int16_of (z : Z) : Z := (z + 2 ^ 15) mod 2 ^ 16 - 2 ^ 15.

(** [int16_t sample16 = w >> 14;] *)
Definition sample16 (w : Z) : Z := int16_of (Z.shiftr w 14).

(** [a[i] = x] on an array held as a list. *)
Fixpoint store {A} (i : nat) (x : A) (a : list A) : list A :=
  match a, i with
  | [], _ => []
  | _ :: r, O => x :: r
  | y :: r, S j => y :: store j x r
  end.

(** The body of the first [for], at index [i]. *)
Definition fill_step (buffer : list Z) (b : list Q * list Q) (i : nat)
  : list Q * list Q :=
  let s16 := sample16 (nth i buffer 0) in
  (store i (inject_Z s16) (fst b), store i 0%Q (snd b)).

(** [for (int i = 0; i < SAMPLES; i++) { ... }] *)
Definition fill (buffer : list Z) (b : list Q * list Q) : list Q * list Q :=
  fold_left (fill_step buffer) (seq 0 SAMPLES) b.

(** [x > y] on floats. *)
Definition Qgtb (x y : Q) : bool := negb (Qle_bool x y).

(** The body of the second [for], at index [i], on (peak, peakIndex). *)
Definition scan_step (v : list Q) (acc : Q * nat) (i : nat) : Q * nat :=
  if Qgtb (nth i v 0%Q) (fst acc) then (nth i v 0%Q, i) else acc.

(** [float peak = 0.0; int peakIndex = 0;
     for (int i = 1; i < SAMPLES / 2; i++) { ... }] *)
Definition find_peak (v : list Q) : Q * nat :=
  fold_left (scan_step v) (seq 1 (SAMPLES / 2 - 1)) (0%Q, 0%nat).

(** [peakIndex * ((float)SAMPLE_RATE / SAMPLES)] *)
Definition dominantFreq (peakIndex : nat) : Q :=
  (inject_Z (Z.of_nat peakIndex)
   * (inject_Z SAMPLE_RATE / inject_Z (Z.of_nat SAMPLES)))%Q.

(** [dominantFreq > 2000 && dominantFreq < 5000 && peak > 6000] *)
Definition isSnap (dominantFreq peak : Q) : bool :=
  Qgtb dominantFreq (inject_Z 2000)
  && Qgtb (inject_Z 5000) dominantFreq
  && Qgtb peak (inject_Z 6000).

(** One call on the FFT object. *)
Definition fft_call (c : call) (f : list Q * list Q -> list Q * list Q)
  (b : list Q * list Q) : Hw (list Q * list Q) :=
  emit c ;; ret (f b).

(** The arrays when [FFT.complexToMagnitude()] has returned. *)
Definition spectrum (fft : ArduinoFFT) (buffer : list Z) (b : list Q * list Q)
  : list Q * list Q :=
  complexToMagnitude fft (compute fft (windowing fft (fill buffer b))).

(** [void loop()] *)
Definition loop (fft : ArduinoFFT) (e : cycle) (g : globals) : Hw globals :=
  r <- i2s_read I2S_PORT (4 * Z.of_nat SAMPLES) portMAX_DELAY (rd e) ;;
  let buffer := snd r in
  let b := fill buffer (vReal g, vImag g) in
  b <- fft_call FFT_windowing (windowing fft) b ;;
  b <- fft_call FFT_compute (compute fft) b ;;
  b <- fft_call FFT_complexToMagnitude (complexToMagnitude fft) b ;;
  elapse (cpu_ms e) ;;
  let '(peak, peakIndex) := find_peak (fst b) in
  let f := dominantFreq peakIndex in
  g <- (if isSnap f peak then
          now <- millis ;;
          emit (Serial_println "👏 Double snap detected! Trigger!") ;;
          r <- Relay.toggle (relay g) ;;
          delay 300 ;;
          ret {| relay := r; vReal := fst b; vImag := snd b;
                 lastSnapTime := lastSnapTime g; snapCount := 0 |}
        else
          ret {| relay := relay g; vReal := fst b; vImag := snd b;
                 lastSnapTime := lastSnapTime g; snapCount := snapCount g |}) ;;
  delay 20 ;;
  ret g.

(** [loop()] called again and again, once per element of [es]. *)
Fixpoint run (fft : ArduinoFFT) (es : list cycle) (g : globals) : Hw globals :=
  match es with
  | [] => ret g
  | e :: es' => g' <- loop fft e g ;; run fft es' g'
  end.

(** Times at which the actuator was driven: the relay is the only pin the
    sketch writes. *)
Definition trigger_times (cs : list event) : list Z := write_times cs.

(** Whether the actuator was driven at all. *)
Definition fired (cs : list event) : bool :=
  match trigger_times cs with
  | [] => false
  | _ :: _ => true
  end.

(** (peak, peakIndex) of the cycle's frame, and the classifier's verdict on
    the dominant frequency and peak they give. *)
Definition frame_peak (fft : ArduinoFFT) (buffer : list Z) (g : globals) : Q * nat :=
  find_peak (fst (spectrum fft buffer (vReal g, vImag g))).

Definition frame_isSnap (fft : ArduinoFFT) (buffer : list Z) (g : globals) : bool :=
  let '(peak, peakIndex) := frame_peak fft buffer g in
  isSnap (dominantFreq peakIndex) peak.

(** The frame of a cycle: the local buffer when the read has returned. *)
Definition frame (e : cycle) : list Z := ans_data (rd e).

End Sound.

(** A transform to run concrete cycles with: rectangular window, no mixing
    between bins, magnitude of a purely real bin. *)
Definition plain_fft : ArduinoFFT :=
  {| windowing := fun b => b;
     compute := fun b => b;
     complexToMagnitude := fun b => (map Qabs (fst b), snd b) |}.

(** A frame: [n] words before, one word [w], zeros up to the length. *)
Definition frame_with (n : nat) (w : Z) : list Z :=
  repeat 0 n ++ w :: repeat 0 (Sound.SAMPLES - n - 1).

Definition answer_ok (data : list Z) (wait : Z) : i2s_answer :=
  {| ans_ret := ESP_OK; ans_bytes := Some 2048; ans_data := data; ans_wait := wait |}.

(* ------------------------------------------------------------------ *)
(** ** The float arithmetic of the sketch, read in binary32            *)
(* ------------------------------------------------------------------ *)

(** The casts, the one product and the band tests of [loop()] on IEEE 754
    binary32 numbers (24 bits of precision, [emax] 128), to check the
    rational model against. *)
Module Binary32.

Definition prec : Z := 24.
Definition emax : Z := 128.

(** [(float) z] for an integer [z]. *)
Definition of_int (z : Z) : spec_float := binary_normalize prec emax z 0 false.

(** The number a finite float stands for. *)
Definition value (x : spec_float) : option Q :=
  match x with
  | S754_zero _ => Some 0%Q
  | S754_finite s m e =>
      Some (inject_Z (if s then Z.neg m else Z.pos m) * 2 ^ e)%Q
  | S754_infinity _ | S754_nan => None
  end.

(** [(float)SAMPLE_RATE / SAMPLES] *)
Definition bin_width : spec_float :=
  SFdiv prec emax (of_int Sound.SAMPLE_RATE) (of_int (Z.of_nat Sound.SAMPLES)).

(** [peakIndex * ((float)SAMPLE_RATE / SAMPLES)] *)
Definition dominantFreq (peakIndex : nat) : spec_float :=
  SFmul prec emax (of_int (Z.of_nat peakIndex)) bin_width.

(** [dominantFreq > 2000 && dominantFreq < 5000 && peak > 6000] *)
Definition isSnap (dominantFreq peak : spec_float) : bool :=
  SFltb (of_int 2000) dominantFreq
  && SFltb dominantFreq (of_int 5000)
  && SFltb (of_int 6000) peak.

(** Zero or a finite number in canonical form: what the casts and the
    arithmetic of finite numbers without overflow produce. *)
Definition is_finite (x : spec_float) : bool :=
  match x with
  | S754_zero _ | S754_finite _ _ _ => true
  | S754_infinity _ | S754_nan => false
  end.

Definition well_formed (x : spec_float) : bool :=
  valid_binary prec emax x && is_finite x.

(** The number, 0 where there is none. *)
Definition val (x : spec_float) : Q :=
  match value x with
  | Some q => q
  | None => 0%Q
  end.

(** The number of mantissa [m] and exponent [e]. *)
Definition mag (m : positive) (e : Z) : Q := (inject_Z (Z.pos m) * 2 ^ e)%Q.

(** What a comparison result says of two numbers. *)
Definition ordered (c : comparison) (x y : Q) : Prop :=
  match c with
  | Lt => (x < y)%Q
  | Eq => (x == y)%Q
  | Gt => (y < x)%Q
  end.

(** The second [for] of [loop()] on floats. *)
Definition scan_step (v : list spec_float) (acc : spec_float * nat) (i : nat)
  : spec_float * nat :=
  if SFltb (fst acc) (nth i v (S754_zero false))
  then (nth i v (S754_zero false), i)
  else acc.

Definition find_peak (v : list spec_float) : spec_float * nat :=
  fold_left (scan_step v) (seq 1 (Sound.SAMPLES / 2 - 1)) (S754_zero false, 0%nat).

(** [isSnap] as [loop()] computes it from the magnitudes. *)
Definition verdict (v : list spec_float) : bool :=
  let '(peak, peakIndex) := find_peak v in
  isSnap (dominantFreq peakIndex) peak.

(** The float stands for exactly the rational [q]. *)
Definition stands_for (x : spec_float) (q : Q) : bool :=
  match value x with
  | Some v => Qeq_bool v q
  | None => false
  end.

(** [p] holds for the [n] integers from [lo] on. *)
Fixpoint holds_from (p : Z -> bool) (lo : Z) (n : nat) : bool :=
  match n with
  | O => true
  | S n' => p lo && holds_from p (lo + 1) n'
  end.

(** The cast of a 16-bit sample is exact. *)
Definition cast_exact (z : Z) : bool := stands_for (of_int z) (inject_Z z).

(** At bin [k] the product is exact and the two band tests answer as on
    the rationals. *)
Definition freq_agrees (k : Z) : bool :=
  let f := dominantFreq (Z.to_nat k) in
  let q := Sound.dominantFreq (Z.to_nat k) in
  stands_for f q
  && Bool.eqb (SFltb (of_int 2000) f) (Sound.Qgtb q (inject_Z 2000))
  && Bool.eqb (SFltb f (of_int 5000)) (Sound.Qgtb (inject_Z 5000) q).

End Binary32.

(* ------------------------------------------------------------------ *)
(** ** Notions the statements use                                      *)
(* ------------------------------------------------------------------ *)

(** Bin [k] is the lowest bin of [1, SAMPLES/2) that holds the maximum of
    that range. *)
Definition lowest_max_bin (v : list Q) (k : nat) : Prop :=
  (1 <= k < Sound.SAMPLES / 2)%nat
  /\ (forall j, (1 <= j < Sound.SAMPLES / 2)%nat -> (nth j v 0 <= nth k v 0)%Q)
  /\ (forall j, (1 <= j < k)%nat -> (nth j v 0 < nth k v 0)%Q).

(** What the scan holds in (peak, peakIndex) once the bins of [1, hi) have
    been visited: still the initial pair when none of them is positive,
    else the first bin of the range that holds its maximum. *)
Definition scanned (v : list Q) (hi : nat) (acc : Q * nat) : Prop :=
  (snd acc = 0%nat /\ fst acc = 0%Q
   /\ forall j, (1 <= j < hi)%nat -> (nth j v 0 <= 0)%Q)
  \/ ((1 <= snd acc < hi)%nat /\ fst acc = nth (snd acc) v 0%Q
      /\ (0 < fst acc)%Q
      /\ (forall j, (1 <= j < hi)%nat -> (nth j v 0 <= fst acc)%Q)
      /\ (forall j, (1 <= j < snd acc)%nat -> (nth j v 0 < fst acc)%Q)).

(** A state of the scan on floats and one of the scan on rationals that
    hold the same bin and the same number. *)
Definition scans_agree (a : spec_float * nat) (a' : Q * nat) : Prop :=
  Binary32.well_formed (fst a) = true
  /\ snd a = snd a' /\ Binary32.val (fst a) = fst a'.

(** Both arrays hold zeros only. *)
Definition all_zero (b : list Q * list Q) : Prop :=
  Forall (fun x => (x == 0)%Q) (fst b) /\ Forall (fun x => (x == 0)%Q) (snd b).

(** A transform whose three stages send zeros to zeros. *)
Definition zero_preserving (fft : ArduinoFFT) : Prop :=
  forall b, all_zero b ->
    all_zero (windowing fft b) /\ all_zero (compute fft b)
    /\ all_zero (complexToMagnitude fft b).

(** Any two of the times, in order, are at least [d] apart. *)
Definition spaced (d : Z) (ts : list Z) : Prop :=
  StronglySorted (fun a b => a + d <= b) ts.

(** How many of the times fall in the window [w, w + d). *)
Definition in_window (w d : Z) (ts : list Z) : nat :=
  length (filter (fun x => (w <=? x) && (x <? w + d)) ts).


(** The calls every cycle starts with: the read, then the three calls on
    the FFT object once the read has returned. *)
Definition cycle_head (t t1 : Z) : list event :=
  [(t, i2s_read_call Sound.I2S_PORT (4 * Z.of_nat Sound.SAMPLES) portMAX_DELAY);
   (t1, FFT_windowing); (t1, FFT_compute); (t1, FFT_complexToMagnitude)].

(** The calls of the branch taken on a snap, entered at time [t2]. *)
Definition snap_branch (r : Relay.t) (t2 : Z) : list event :=
  (t2, millis_call)
  :: (t2, Serial_println "👏 Double snap detected! Trigger!")
  :: calls (Relay.toggle r t2) ++ [(t2, delay_call 300)].

(** Globals in the middle of a run: relay on, counters and arrays holding
    what earlier cycles left. *)
Definition later_globals : Sound.globals :=
  {| Sound.relay := {| Relay.pin := 20; Relay.state := true; Relay.invertLogic := false |};
     Sound.vReal := repeat (7 # 2)%Q Sound.SAMPLES;
     Sound.vImag := repeat (-1)%Q Sound.SAMPLES;
     Sound.lastSnapTime := 77;
     Sound.snapCount := 3 |}.

(** The surroundings never take negative time. *)
Definition time_flows (e : Sound.cycle) : Prop :=
  0 <= ans_wait (Sound.rd e) /\ 0 <= Sound.cpu_ms e.

(** Concrete frames and cycles. *)
Definition loud_frame : list Z := frame_with 96 (8000 * 2 ^ 14).
Definition quiet_frame : list Z := repeat 0 Sound.SAMPLES.

Definition loud_cycle : Sound.cycle :=
  {| Sound.rd := answer_ok loud_frame 32; Sound.cpu_ms := 3 |}.
Definition quiet_cycle : Sound.cycle :=
  {| Sound.rd := answer_ok quiet_frame 32; Sound.cpu_ms := 3 |}.

(** A read that fails at once (status [ESP_ERR_INVALID_ARG], nothing
    stored through the out-parameter) and leaves in the local buffer what
    the stack held. *)
Definition ESP_ERR_INVALID_ARG : Z := 258.
Definition failed_read (stack : list Z) : i2s_answer :=
  {| ans_ret := ESP_ERR_INVALID_ARG; ans_bytes := None;
     ans_data := stack; ans_wait := 0 |}.
Definition failed_cycle (stack : list Z) : Sound.cycle :=
  {| Sound.rd := failed_read stack; Sound.cpu_ms := 3 |}.

(** The same cycle with another status and byte count of the read. *)
Definition with_status (e : Sound.cycle) (err : Z) (n : option Z) : Sound.cycle :=
  {| Sound.rd := {| ans_ret := err; ans_bytes := n;
                    ans_data := ans_data (Sound.rd e);
                    ans_wait := ans_wait (Sound.rd e) |};
     Sound.cpu_ms := Sound.cpu_ms e |}.

(* ------------------------------------------------------------------ *)
(** ** Sequences of calls on a relay and on an I2S device              *)
(* ------------------------------------------------------------------ *)

(** One call on a [Relay]. *)
Inductive relay_op : Type :=
| relay_begin
| relay_on
| relay_off
| relay_toggle
| relay_setState (s : bool)
| relay_pulse (duration : Z).

Definition relay_do (o : relay_op) (r : Relay.t) : Hw Relay.t :=
  match o with
  | relay_begin => Relay.begin r
  | relay_on => Relay.on r
  | relay_off => Relay.off r
  | relay_toggle => Relay.toggle r
  | relay_setState s => Relay.setState r s
  | relay_pulse duration => Relay.pulse r duration
  end.

Fixpoint relay_run (os : list relay_op) (r : Relay.t) : Hw Relay.t :=
  match os with
  | [] => ret r
  | o :: os' => r' <- relay_do o r ;; relay_run os' r'
  end.

(** One call on an [I2SDevice], with what the driver answers to it. *)
Inductive i2s_op : Type :=
| dev_begin (install set_pin : Z)
| dev_read (buffer : list Z) (size ticks : Z) (a : i2s_answer)
| dev_write (size ticks : Z) (a : i2s_answer)
| dev_toggleMode (to_rx : bool)
| dev_end.

Definition i2s_do (o : i2s_op) (d : I2SDevice.t) : Hw I2SDevice.t :=
  match o with
  | dev_begin install set_pin =>
      r <- I2SDevice.begin d install set_pin ;; ret (snd r)
  | dev_read buffer size ticks a =>
      r <- I2SDevice.read d buffer size ticks a ;; ret (snd r)
  | dev_write size ticks a =>
      r <- I2SDevice.write d size ticks a ;; ret (snd r)
  | dev_toggleMode to_rx => I2SDevice.toggleMode d to_rx
  | dev_end => I2SDevice.end_ d
  end.

Fixpoint i2s_run (os : list i2s_op) (d : I2SDevice.t) : Hw I2SDevice.t :=
  match os with
  | [] => ret d
  | o :: os' => d' <- i2s_do o d ;; i2s_run os' d'
  end.

Definition is_i2s_io (e : event) : bool :=
  match snd e with
  | i2s_read_call _ _ _ | i2s_write_call _ _ _ => true
  | _ => false
  end.

Definition is_install (e : event) : bool :=
  match snd e with
  | i2s_driver_install_call _ => true
  | _ => false
  end.

Definition is_set_pin (e : event) : bool :=
  match snd e with
  | i2s_set_pin_call _ _ _ _ _ => true
  | _ => false
  end.

Definition is_uninstall (e : event) : bool :=
  match snd e with
  | i2s_driver_uninstall_call _ => true
  | _ => false
  end.

(** Whether, after the calls [cs], the last of the pin set-ups and driver
    releases is a pin set-up; [configured] is the answer before them. *)
Fixpoint configured_after (configured : bool) (cs : list event) : bool :=
  match cs with
  | [] => configured
  | e :: rest =>
      if is_set_pin e then configured_after true rest
      else if is_uninstall e then configured_after false rest
      else configured_after configured rest
  end.

(** Every read, write and release in [cs] comes after a pin set-up with no
    release in between. *)
Fixpoint driver_use_ok (configured : bool) (cs : list event) : bool :=
  match cs with
  | [] => true
  | e :: rest =>
      if is_set_pin e then driver_use_ok true rest
      else if is_uninstall e then configured && driver_use_ok false rest
      else if is_i2s_io e then configured && driver_use_ok configured rest
      else driver_use_ok configured rest
  end.

(** The fields a device is built with. *)
Definition same_config (d d' : I2SDevice.t) : Prop :=
  I2SDevice.type d' = I2SDevice.type d
  /\ I2SDevice.sample_rate d' = I2SDevice.sample_rate d
  /\ I2SDevice.channels d' = I2SDevice.channels d
  /\ I2SDevice.bits_per_sample d' = I2SDevice.bits_per_sample d
  /\ I2SDevice.ws_pin d' = I2SDevice.ws_pin d
  /\ I2SDevice.sd_pin d' = I2SDevice.sd_pin d
  /\ I2SDevice.sck_pin d' = I2SDevice.sck_pin d
  /\ I2SDevice.port d' = I2SDevice.port d.

(* ------------------------------------------------------------------ *)
(** ** LED.h, LED.cpp: the LED                                         *)
(* ------------------------------------------------------------------ *)

Module LED.

Record t : Type := mk {
  pin : Z;              (* byte *)
  state : bool
}.

Definition new (ledPin : Z) : t := {| pin := ledPin; state := false |}.

Definition begin (l : t) : Hw t :=
  emit (pinMode_OUTPUT (pin l)) ;;
  emit (digitalWrite (pin l) LOW) ;;
  ret {| pin := pin l; state := false |}.

Definition on (l : t) : Hw t :=
  emit (digitalWrite (pin l) HIGH) ;;
  ret {| pin := pin l; state := true |}.

Definition off (l : t) : Hw t :=
  emit (digitalWrite (pin l) LOW) ;;
  ret {| pin := pin l; state := false |}.

Definition toggle (l : t) : Hw t :=
  if state l then off l else on l.

Definition isOn (l : t) : bool := state l.

Definition getPin (l : t) : Z := pin l.

(** [void blink(unsigned int onTime, unsigned int offTime)] *)
Definition blink (l : t) (onTime offTime : Z) : Hw t :=
  l <- on l ;;
  delay onTime ;;
  l <- off l ;;
  delay offTime ;;
  ret l.

End LED.

(** One call on an [LED]. *)
Inductive led_op : Type :=
| led_begin
| led_on
| led_off
| led_toggle
| led_blink (onTime offTime : Z).

Definition led_do (o : led_op) (l : LED.t) : Hw LED.t :=
  match o with
  | led_begin => LED.begin l
  | led_on => LED.on l
  | led_off => LED.off l
  | led_toggle => LED.toggle l
  | led_blink onTime offTime => LED.blink l onTime offTime
  end.

Fixpoint led_run (os : list led_op) (l : LED.t) : Hw LED.t :=
  match os with
  | [] => ret l
  | o :: os' => l' <- led_do o l ;; led_run os' l'
  end.

(* ------------------------------------------------------------------ *)
(** ** LED.h, LED.cpp: the servo                                       *)
(* ------------------------------------------------------------------ *)

(** Angles are C++ [int]s, 32 bits wide.  The only arithmetic on them that
    can leave the [int] range is the sum [minAngle + maxAngle]; it is kept
    to 32 bits the way the two's-complement target keeps it (C++ itself
    gives signed overflow no meaning), and what is proved about the middle
    of the range assumes the sum fits.  A call returns the object and the
    calls made on the wrapped [Servo] and on [delay], in order. *)
Module ServoMotor.

Inductive servo_call : Type :=
| attach (pin : Z)
| write (angle : Z)
| detach_call
| delay_ms (ms : Z).

Record t : Type := mk {
  pin : Z;              (* byte *)
  currentAngle : Z;
  minAngle : Z;
  maxAngle : Z
}.

(** An [int] result: the low 32 bits, read as two's complement. *)
Definition int_of (z : Z) : Z := (z + 2 ^ 31) mod 2 ^ 32 - 2 ^ 31.

(** [(minA + maxA) / 2] on [int]s; [/] rounds towards zero. *)
Definition middle (minA maxA : Z) : Z := Z.quot (int_of (minA + maxA)) 2.

(** [ServoMotor(byte servoPin, int minA = 0, int maxA = 180)] *)
Definition new (servoPin minA maxA : Z) : t :=
  {| pin := servoPin; currentAngle := middle minA maxA;
     minAngle := minA; maxAngle := maxA |}.

Definition set_angle (s : t) (a : Z) : t :=
  {| pin := pin s; currentAngle := a;
     minAngle := minAngle s; maxAngle := maxAngle s |}.

Definition begin (s : t) : t * list servo_call :=
  (s, [attach (pin s); write (currentAngle s); delay_ms 500]).

(** [if (angle < minAngle) angle = minAngle;
     if (angle > maxAngle) angle = maxAngle;] *)
Definition clamp (s : t) (angle : Z) : Z :=
  let angle := if angle <? minAngle s then minAngle s else angle in
  if angle >? maxAngle s then maxAngle s else angle.

Definition moveTo (s : t) (angle : Z) : t * list servo_call :=
  let angle := clamp s angle in
  (set_angle s angle, [write angle; delay_ms 500]).

(** An [int] passed to [delay(unsigned long)]. *)
Definition ulong (z : Z) : Z := z mod 2 ^ 32.

(** [while (currentAngle != targetAngle) { currentAngle += step;
     servo.write(currentAngle); delay(stepDelay); }], at most [fuel] times
    round; [None] when that was not enough. *)
Fixpoint smooth_steps (fuel : nat) (s : t) (target step stepDelay : Z)
  : option (t * list servo_call) :=
  if currentAngle s =? target then Some (s, [])
  else
    match fuel with
    | O => None
    | S fuel' =>
        let s' := set_angle s (currentAngle s + step) in
        match smooth_steps fuel' s' target step stepDelay with
        | Some (s'', cs) =>
            Some (s'', write (currentAngle s') :: delay_ms (ulong stepDelay) :: cs)
        | None => None
        end
    end.

Definition smoothMoveTo (fuel : nat) (s : t) (targetAngle stepDelay : Z)
  : option (t * list servo_call) :=
  let targetAngle := clamp s targetAngle in
  let step := if targetAngle >? currentAngle s then 1 else -1 in
  smooth_steps fuel s targetAngle step stepDelay.

Definition sweep (fuel : nat) (s : t) (sweepDelay : Z)
  : option (t * list servo_call) :=
  match smoothMoveTo fuel s (maxAngle s) sweepDelay with
  | Some (s1, c1) =>
      match smoothMoveTo fuel s1 (minAngle s1) sweepDelay with
      | Some (s2, c2) => Some (s2, c1 ++ c2)
      | None => None
      end
  | None => None
  end.

(** [for (int i = 0; i < times; i++) sweep(sweepDelay);] with [n] rounds
    to go. *)
Fixpoint sweeps (n : nat) (fuel : nat) (s : t) (sweepDelay : Z)
  : option (t * list servo_call) :=
  match n with
  | O => Some (s, [])
  | S n' =>
      match sweep fuel s sweepDelay with
      | Some (s1, c1) =>
          match sweeps n' fuel s1 sweepDelay with
          | Some (s2, c2) => Some (s2, c1 ++ c2)
          | None => None
          end
      | None => None
      end
  end.

Definition sweepTimes (fuel : nat) (s : t) (times sweepDelay : Z)
  : option (t * list servo_call) :=
  match sweeps (Z.to_nat times) fuel s sweepDelay with
  | Some (s1, c1) =>
      match smoothMoveTo fuel s1 (middle (minAngle s1) (maxAngle s1)) sweepDelay with
      | Some (s2, c2) => Some (s2, c1 ++ c2)
      | None => None
      end
  | None => None
  end.

Definition getAngle (s : t) : Z := currentAngle s.

Definition detach (s : t) : t * list servo_call := (s, [detach_call]).

Definition reattach (s : t) : t * list servo_call :=
  (s, [attach (pin s); write (currentAngle s); delay_ms 100]).

(** The angles written to the servo. *)
Fixpoint written (cs : list servo_call) : list Z :=
  match cs with
  | [] => []
  | write a :: rest => a :: written rest
  | _ :: rest => written rest
  end.

(** The time spent in [delay]. *)
Fixpoint waited (cs : list servo_call) : Z :=
  match cs with
  | [] => 0
  | delay_ms ms :: rest => ms + waited rest
  | _ :: rest => waited rest
  end.

(** The angles [from + step], [from + 2 * step], ..., [n] of them. *)
Fixpoint ramp (n : nat) (from step : Z) : list Z :=
  match n with
  | O => []
  | S n' => (from + step) :: ramp n' (from + step) step
  end.

(** The current angle lies in the configured range. *)
Definition in_range (s : t) : Prop := minAngle s <= currentAngle s <= maxAngle s.

(** The sum of the two ends of the range fits an [int]. *)
Definition sum_fits (lo hi : Z) : Prop := - 2 ^ 31 <= lo + hi < 2 ^ 31.

(** The steps [smoothMoveTo] takes to reach [targetAngle]. *)
Definition distance (s : t) (targetAngle : Z) : nat :=
  Z.to_nat (Z.abs (clamp s targetAngle - currentAngle s)).

End ServoMotor.

(** One call on a [ServoMotor]. *)
Inductive servo_op : Type :=
| servo_begin
| servo_moveTo (angle : Z)
| servo_smoothMoveTo (targetAngle stepDelay : Z)
| servo_sweep (sweepDelay : Z)
| servo_sweepTimes (times sweepDelay : Z)
| servo_detach
| servo_reattach.

Definition servo_do (fuel : nat) (o : servo_op) (s : ServoMotor.t)
  : option (ServoMotor.t * list ServoMotor.servo_call) :=
  match o with
  | servo_begin => Some (ServoMotor.begin s)
  | servo_moveTo angle => Some (ServoMotor.moveTo s angle)
  | servo_smoothMoveTo targetAngle stepDelay =>
      ServoMotor.smoothMoveTo fuel s targetAngle stepDelay
  | servo_sweep sweepDelay => ServoMotor.sweep fuel s sweepDelay
  | servo_sweepTimes times sweepDelay =>
      ServoMotor.sweepTimes fuel s times sweepDelay
  | servo_detach => Some (ServoMotor.detach s)
  | servo_reattach => Some (ServoMotor.reattach s)
  end.

Fixpoint servo_run (fuel : nat) (os : list servo_op) (s : ServoMotor.t)
  : option (ServoMotor.t * list ServoMotor.servo_call) :=
  match os with
  | [] => Some (s, [])
  | o :: os' =>
      match servo_do fuel o s with
      | Some (s1, c1) =>
          match servo_run fuel os' s1 with
          | Some (s2, c2) => Some (s2, c1 ++ c2)
          | None => None
          end
      | None => None
      end
  end.

(** A servo that went through calls: same pin and range as [s], angle
    inside the range, and only angles of the range written. *)
Definition servo_kept (s s' : ServoMotor.t) (cs : list ServoMotor.servo_call) : Prop :=
  ServoMotor.pin s' = ServoMotor.pin s
  /\ ServoMotor.minAngle s' = ServoMotor.minAngle s
  /\ ServoMotor.maxAngle s' = ServoMotor.maxAngle s
  /\ ServoMotor.in_range s'
  /\ Forall (fun a => ServoMotor.minAngle s <= a <= ServoMotor.maxAngle s)
            (ServoMotor.written cs).

(* ------------------------------------------------------------------ *)
(** ** More notions for the sketch                                     *)
(* ------------------------------------------------------------------ *)

(** The samples the first loop leaves in [vReal] for a buffer. *)
Definition samples_of (buffer : list Z) : list Q :=
  map (fun i => inject_Z (Sound.sample16 (nth i buffer 0))) (seq 0 Sound.SAMPLES).

(** Bins 65 to 159: those whose frequency lies inside the band. *)
Definition bin_in_band (k : nat) : bool := (65 <=? k)%nat && (k <=? 159)%nat.

(** Time the surroundings take over the cycles [es]. *)
Fixpoint outside_time (es : list Sound.cycle) : Z :=
  match es with
  | [] => 0
  | e :: es' => ans_wait (Sound.rd e) + Sound.cpu_ms e + outside_time es'
  end.

(** [b] flipped [n] times. *)
Definition flipped (n : nat) (b : bool) : bool := if Nat.odd n then negb b else b.

(* ------------------------------------------------------------------ *)
(** ** Relay                                                           *)
(* ------------------------------------------------------------------ *)

Lemma pin_level_app p cs1 cs2 :
  pin_level p (cs1 ++ cs2) =
  match pin_level p cs2 with
  | Some v => Some v
  | None => pin_level p cs1
  end.
Proof.
  induction cs1 as [|[t c] cs1 IH]; simpl.
  - now destruct (pin_level p cs2).
  - rewrite IH. now destruct (pin_level p cs2).
Qed.

Lemma on_result r t :
  Relay.on r t =
  (Relay.set_state r true, t,
   [(t, digitalWrite (Relay.pin r) (Relay.drive_level r true));
    (t, Serial_print "[Relay] GPIO"); (t, Serial_print_int (Relay.pin r));
    (t, Serial_println " 已打开")]).
Proof. reflexivity. Qed.

Lemma off_result r t :
  Relay.off r t =
  (Relay.set_state r false, t,
   [(t, digitalWrite (Relay.pin r) (Relay.drive_level r false));
    (t, Serial_print "[Relay] GPIO"); (t, Serial_print_int (Relay.pin r));
    (t, Serial_println " 已关闭")]).
Proof. reflexivity. Qed.

Lemma toggle_value r t :
  value (Relay.toggle r t) = Relay.set_state r (negb (Relay.state r)).
Proof. unfold Relay.toggle. now destruct (Relay.state r). Qed.

Lemma toggle_clock r t : clock_after (Relay.toggle r t) = t.
Proof. unfold Relay.toggle. now destruct (Relay.state r). Qed.

Lemma toggle_write_times r t : write_times (calls (Relay.toggle r t)) = [t].
Proof. unfold Relay.toggle. now destruct (Relay.state r). Qed.

Lemma toggle_pin_level r t :
  pin_level (Relay.pin r) (calls (Relay.toggle r t)) =
  Some (Relay.drive_level r (negb (Relay.state r))).
Proof.
  unfold Relay.toggle.
  destruct (Relay.state r); [rewrite off_result | rewrite on_result];
    cbn; now rewrite Z.eqb_refl.
Qed.

(** C9. [toggle] flips the recorded state and drives the pin to the level of
    the new state; a second [toggle] gives back the relay it started from,
    and leaves the pin at the level of the original state. *)
Theorem toggle_twice_restores (r : Relay.t) (t : Z) :
  let once := Relay.toggle r t in
  let twice := Relay.toggle (value once) (clock_after once) in
  Relay.getState (value once) = negb (Relay.getState r)
  /\ pin_level (Relay.pin r) (calls once)
     = Some (Relay.drive_level r (negb (Relay.getState r)))
  /\ value twice = r
  /\ pin_level (Relay.pin r) (calls once ++ calls twice)
     = Some (Relay.drive_level r (Relay.getState r)).
Proof.
  intros once twice. subst once twice. unfold Relay.getState.
  rewrite toggle_clock, !toggle_value.
  repeat split.
  - apply toggle_pin_level.
  - destruct r as [p s i]. unfold Relay.set_state. cbn.
    now rewrite Bool.negb_involutive.
  - rewrite pin_level_app.
    change (Relay.pin r) with (Relay.pin (Relay.set_state r (negb (Relay.state r)))) at 1.
    rewrite toggle_pin_level. cbn. now rewrite Bool.negb_involutive.
Qed.

(* ------------------------------------------------------------------ *)
(** ** I2SDevice                                                       *)
(* ------------------------------------------------------------------ *)

(** C10. [read] returns 0, leaves buffer and device as they were and makes
    no driver call unless the device is initialised and in RX mode; then it
    makes exactly one [i2s_read] on the device's port and returns the count
    the driver stored through the out-parameter: [n] when the driver stored
    [n], and the 0 the local was initialised with when it stored nothing.
    The device record is unchanged either way. *)
Theorem read_guarded (d : I2SDevice.t) (buffer : list Z) (size ticks : Z)
  (a : i2s_answer) (t : Z) :
  let r := I2SDevice.read d buffer size ticks a t in
  let ready := I2SDevice.initialized d && I2SDevice.rx_mode d in
  value r = (if ready
             then (match ans_bytes a with
                   | Some n => n
                   | None => 0
                   end, ans_data a, d)
             else (0, buffer, d))
  /\ filter is_i2s_read (calls r)
     = (if ready then [(t, i2s_read_call (I2SDevice.port d) size ticks)] else [])
  /\ clock_after r = (if ready then t + ans_wait a else t).
Proof.
  unfold I2SDevice.read.
  destruct (I2SDevice.initialized d), (I2SDevice.rx_mode d); cbn;
    try (repeat split; reflexivity).
  destruct (Z.eqb (ans_ret a) ESP_OK); destruct (ans_bytes a) as [n|]; cbn;
    repeat split; reflexivity.
Qed.

(* ------------------------------------------------------------------ *)
(** ** The classifier                                                  *)
(* ------------------------------------------------------------------ *)

Import Sound.

Lemma Qgtb_iff (x y : Q) : Qgtb x y = true <-> (y < x)%Q.
Proof.
  unfold Qgtb. rewrite Bool.negb_true_iff. split; intro H.
  - apply Qnot_le_lt. intro L. apply Qle_bool_iff in L. congruence.
  - destruct (Qle_bool x y) eqn:E; [|reflexivity].
    apply Qle_bool_iff in E. lra.
Qed.

Lemma Qgtb_false_iff (x y : Q) : Qgtb x y = false <-> (x <= y)%Q.
Proof.
  unfold Qgtb. rewrite Bool.negb_false_iff. apply Qle_bool_iff.
Qed.

Lemma isSnap_iff (f p : Q) :
  isSnap f p = true <-> (2000 < f /\ f < 5000 /\ 6000 < p)%Q.
Proof.
  unfold isSnap. rewrite !Bool.andb_true_iff, !Qgtb_iff.
  change (inject_Z 2000) with 2000%Q. change (inject_Z 5000) with 5000%Q.
  change (inject_Z 6000) with 6000%Q. tauto.
Qed.

Lemma isSnap_false_outside (f p : Q) :
  (f <= 2000 \/ 5000 <= f \/ p <= 6000)%Q -> isSnap f p = false.
Proof.
  intro H. destruct (isSnap f p) eqn:E; [|reflexivity].
  apply isSnap_iff in E. lra.
Qed.

(** C3. The classifier answers true exactly for a dominant frequency
    strictly between 2000 and 5000 and a peak strictly above 6000; at a
    band edge it answers false, also at 5000 Hz as bin 160 produces it. *)
Theorem isSnap_open_band :
  (forall f p : Q, isSnap f p = true <-> (2000 < f /\ f < 5000 /\ 6000 < p)%Q)
  /\ (forall p : Q, isSnap 5000 p = false)
  /\ (forall p : Q, isSnap 2000 p = false)
  /\ (dominantFreq 160 == 5000)%Q
  /\ (forall p : Q, isSnap (dominantFreq 160) p = false).
Proof.
  split; [exact isSnap_iff|].
  split; [intro p; apply isSnap_false_outside; lra|].
  split; [intro p; apply isSnap_false_outside; lra|].
  assert (E : (dominantFreq 160 == 5000)%Q) by reflexivity.
  split; [exact E|].
  intro p. apply isSnap_false_outside. rewrite E. lra.
Qed.

(* ------------------------------------------------------------------ *)
(** ** The peak scan                                                   *)
(* ------------------------------------------------------------------ *)

Lemma scan_step_scanned (v : list Q) (hi : nat) (acc : Q * nat) :
  (1 <= hi)%nat -> scanned v hi acc -> scanned v (S hi) (scan_step v acc hi).
Proof.
  intros Hhi H. unfold scan_step.
  destruct (Qgtb (nth hi v 0%Q) (fst acc)) eqn:E.
  - apply Qgtb_iff in E. right. cbn [fst snd].
    destruct H as [(Hk & Hp & Hall) | (Hk & Hp & Hpos & Hall & Hbefore)].
    + rewrite Hp in E. repeat split; try lia; try assumption.
      * intros j Hj. destruct (Nat.eq_dec j hi) as [->|Hne]; [lra|].
        assert (L := Hall j ltac:(lia)). lra.
      * intros j Hj. assert (L := Hall j ltac:(lia)). lra.
    + repeat split; try lia; try lra.
      * intros j Hj. destruct (Nat.eq_dec j hi) as [->|Hne]; [lra|].
        assert (L := Hall j ltac:(lia)). lra.
      * intros j Hj. assert (L := Hall j ltac:(lia)). lra.
  - apply Qgtb_false_iff in E.
    destruct H as [(Hk & Hp & Hall) | (Hk & Hp & Hpos & Hall & Hbefore)].
    + left. repeat split; try assumption.
      intros j Hj. destruct (Nat.eq_dec j hi) as [->|Hne].
      * rewrite Hp in E. exact E.
      * apply Hall. lia.
    + right. repeat split; try lia; try assumption.
      intros j Hj. destruct (Nat.eq_dec j hi) as [->|Hne]; [exact E|].
      apply Hall. lia.
Qed.

Lemma scan_scanned (v : list Q) (n : nat) :
  scanned v (S n) (fold_left (scan_step v) (seq 1 n) (0%Q, 0%nat)).
Proof.
  induction n as [|n IH].
  - left. cbn. repeat split. intros j Hj. lia.
  - rewrite seq_S, fold_left_app. cbn [fold_left Nat.add].
    apply scan_step_scanned; [lia | exact IH].
Qed.

Lemma half_SAMPLES : (SAMPLES / 2 = S (SAMPLES / 2 - 1))%nat.
Proof. reflexivity. Qed.

Lemma find_peak_scanned (v : list Q) : scanned v (SAMPLES / 2) (find_peak v).
Proof. unfold find_peak. rewrite half_SAMPLES at 1. apply scan_scanned. Qed.

Lemma find_peak_zero (v : list Q) :
  Forall (fun x => (x == 0)%Q) v -> find_peak v = (0%Q, 0%nat).
Proof.
  intro Hz. unfold find_peak.
  generalize (seq 1 (SAMPLES / 2 - 1)). intro l.
  induction l as [|i l IH]; [reflexivity|].
  cbn [fold_left]. unfold scan_step at 2. cbn [fst].
  replace (Qgtb (nth i v 0%Q) 0) with false; [exact IH|].
  symmetry. apply Qgtb_false_iff.
  destruct (Nat.lt_ge_cases i (length v)) as [Hlt|Hge].
  - rewrite Forall_forall in Hz.
    rewrite (Hz (nth i v 0%Q)); [lra | now apply nth_In].
  - rewrite nth_overflow by exact Hge. lra.
Qed.

(** C4, amended.  The scan visits bins 1 to SAMPLES/2 - 1 only.  When one
    of them is positive, the result is the lowest bin of that range holding
    its maximum, with that maximum as peak; when none is, the result is bin
    0 with peak 0.  The dominant frequency is bin * SAMPLE_RATE / SAMPLES. *)
Theorem find_peak_first_maximum (v : list Q) :
  let peak := fst (find_peak v) in
  let k := snd (find_peak v) in
  ((k = 0%nat /\ peak = 0%Q
    /\ forall j, (1 <= j < SAMPLES / 2)%nat -> (nth j v 0 <= 0)%Q)
   \/ (lowest_max_bin v k /\ peak = nth k v 0%Q /\ (0 < peak)%Q))
  /\ (dominantFreq k
      == inject_Z (Z.of_nat k) * inject_Z SAMPLE_RATE / inject_Z (Z.of_nat SAMPLES))%Q.
Proof.
  intros peak k. subst peak k. split.
  - destruct (find_peak_scanned v)
      as [(Hk & Hp & Hall) | (Hk & Hp & Hpos & Hall & Hbefore)].
    + left. auto.
    + right. unfold lowest_max_bin. rewrite <- Hp. auto.
  - unfold dominantFreq, Qdiv. ring.
Qed.

(** C4, as stated, fails on a silent spectrum: bins 1 and 2 tie for the
    maximum of the range and bin 1 is the lowest bin holding it, but the
    scan answers bin 0, which is outside the range. *)
Lemma find_peak_silent_spectrum :
  let v := repeat 0%Q SAMPLES in
  lowest_max_bin v 1
  /\ (nth 2 v 0 == nth 1 v 0)%Q
  /\ snd (find_peak v) = 0%nat
  /\ ~ lowest_max_bin v (snd (find_peak v)).
Proof.
  intro v.
  assert (Hn : forall j, nth j v 0%Q = 0%Q).
  { intro j. subst v. generalize SAMPLES. intro n. revert j.
    induction n as [|n IH]; intros [|j]; cbn; auto. }
  assert (Hk : snd (find_peak v) = 0%nat).
  { rewrite find_peak_zero; [reflexivity|].
    subst v. apply Forall_forall. intros x Hx.
    apply repeat_spec in Hx. now subst x. }
  split; [|split; [|split]].
  - unfold lowest_max_bin. split; [|split].
    + change (SAMPLES / 2)%nat with 256%nat. lia.
    + intros j _. rewrite !Hn. lra.
    + intros j Hj. lia.
  - rewrite !Hn. reflexivity.
  - exact Hk.
  - rewrite Hk. intros [Hr _]. lia.
Qed.

(* ------------------------------------------------------------------ *)
(** ** The first loop: samples into the arrays                         *)
(* ------------------------------------------------------------------ *)

Section Store.
Context {A : Type}.

Lemma length_store (i : nat) (x : A) (a : list A) :
  length (store i x a) = length a.
Proof.
  revert i. induction a as [|y a IH]; intros [|i]; cbn; auto.
Qed.

Lemma nth_store_same (i : nat) (x d : A) (a : list A) :
  (i < length a)%nat -> nth i (store i x a) d = x.
Proof.
  revert i. induction a as [|y a IH]; intros [|i] H; cbn in *; try lia; auto.
  apply IH. lia.
Qed.

Lemma nth_store_other (i j : nat) (x d : A) (a : list A) :
  i <> j -> nth j (store i x a) d = nth j a d.
Proof.
  revert i j. induction a as [|y a IH]; intros [|i] [|j] H; cbn;
    try reflexivity; try contradiction.
  apply IH. intro E. apply H. now f_equal.
Qed.

End Store.

Lemma fill_fold (buffer : list Z) (n : nat) :
  forall (a : nat) (b : list Q * list Q),
    let r := fold_left (fill_step buffer) (seq a n) b in
    length (fst r) = length (fst b)
    /\ length (snd r) = length (snd b)
    /\ (forall i, (a <= i < a + n)%nat -> (i < length (fst b))%nat ->
          nth i (fst r) 0%Q = inject_Z (sample16 (nth i buffer 0)))
    /\ (forall i, (a <= i < a + n)%nat -> (i < length (snd b))%nat ->
          nth i (snd r) 0%Q = 0%Q)
    /\ (forall i, ~ (a <= i < a + n)%nat ->
          nth i (fst r) 0%Q = nth i (fst b) 0%Q
          /\ nth i (snd r) 0%Q = nth i (snd b) 0%Q).
Proof.
  induction n as [|n IH]; intros a b; cbn [seq fold_left].
  - repeat split; intros; lia.
  - specialize (IH (S a) (fill_step buffer b a)). cbv zeta in IH.
    destruct IH as (L1 & L2 & Hre & Him & Hout).
    cbn [fill_step fst snd] in L1, L2, Hre, Him, Hout.
    rewrite length_store in L1, L2, Hre, Him.
    cbv zeta. split; [exact L1|]. split; [exact L2|].
    split; [|split].
    + intros i Hi Hlen. destruct (Nat.eq_dec i a) as [->|Hne].
      * destruct (Hout a ltac:(lia)) as [E _]. rewrite E.
        now apply nth_store_same.
      * apply Hre; [lia | exact Hlen].
    + intros i Hi Hlen. destruct (Nat.eq_dec i a) as [->|Hne].
      * destruct (Hout a ltac:(lia)) as [_ E]. rewrite E.
        now apply nth_store_same.
      * apply Him; [lia | exact Hlen].
    + intros i Hi. destruct (Hout i ltac:(lia)) as [E1 E2].
      rewrite E1, E2. split; apply nth_store_other; lia.
Qed.



Lemma fill_spec (buffer : list Z) (re im : list Q) :
  let r := fill buffer (re, im) in
  length (fst r) = length re
  /\ length (snd r) = length im
  /\ (forall i, (i < SAMPLES)%nat -> (i < length re)%nat ->
        nth i (fst r) 0%Q = inject_Z (sample16 (nth i buffer 0)))
  /\ (forall i, (i < SAMPLES)%nat -> (i < length im)%nat ->
        nth i (snd r) 0%Q = 0%Q).
Proof.
  unfold fill.
  destruct (fill_fold buffer SAMPLES 0 (re, im)) as (L1 & L2 & Hv & Hz & _).
  cbv zeta. cbn [fst snd] in L1, L2, Hv, Hz.
  split; [exact L1|]. split; [exact L2|]. split.
  - intros i Hi Hlen. apply Hv; [lia | exact Hlen].
  - intros i Hi Hlen. apply Hz; [lia | exact Hlen].
Qed.

Lemma fill_imag_zero (buffer : list Z) (re im : list Q) :
  length im = SAMPLES -> snd (fill buffer (re, im)) = repeat 0%Q SAMPLES.
Proof.
  intro Him.
  destruct (fill_spec buffer re im) as (_ & L2 & _ & Hz).
  apply (nth_ext _ _ 0%Q 0%Q).
  - rewrite L2, repeat_length. exact Him.
  - intros i Hi. rewrite L2 in Hi.
    rewrite Hz by lia. symmetry. apply nth_repeat.
Qed.




(* ------------------------------------------------------------------ *)
(** ** One pass through the loop                                       *)
(* ------------------------------------------------------------------ *)

Lemma bind_calls {A B} (m : Hw A) (k : A -> Hw B) (t : Z) :
  calls (bind m k t) = calls (m t) ++ calls (k (value (m t)) (clock_after (m t))).
Proof.
  unfold bind, calls, value, clock_after.
  destruct (m t) as [[a t1] c1]. cbn. now destruct (k a t1) as [[b t2] c2].
Qed.

Lemma bind_clock {A B} (m : Hw A) (k : A -> Hw B) (t : Z) :
  clock_after (bind m k t) = clock_after (k (value (m t)) (clock_after (m t))).
Proof.
  unfold bind, calls, value, clock_after.
  destruct (m t) as [[a t1] c1]. cbn. now destruct (k a t1) as [[b t2] c2].
Qed.

Lemma write_times_app (a b : list event) :
  write_times (a ++ b) = write_times a ++ write_times b.
Proof.
  induction a as [|[t c] a IH]; [reflexivity|].
  destruct c; cbn; rewrite IH; reflexivity.
Qed.


Lemma toggle_no_fft r t : filter is_fft (calls (Relay.toggle r t)) = [].
Proof. unfold Relay.toggle. now destruct (Relay.state r). Qed.

Lemma toggle_no_read r t : filter is_i2s_read (calls (Relay.toggle r t)) = [].
Proof. unfold Relay.toggle. now destruct (Relay.state r). Qed.

(** What one pass returns, branch by branch. *)
Lemma loop_result (fft : ArduinoFFT) (e : cycle) (g : globals) (t : Z) :
  let b := spectrum fft (frame e) (vReal g, vImag g) in
  let t1 := t + ans_wait (rd e) in
  let t2 := t1 + cpu_ms e in
  loop fft e g t =
  if frame_isSnap fft (frame e) g then
    ({| relay := value (Relay.toggle (relay g) t2);
        vReal := fst b; vImag := snd b;
        lastSnapTime := lastSnapTime g; snapCount := 0 |},
     t2 + 300 + 20,
     cycle_head t t1 ++ snap_branch (relay g) t2 ++ [(t2 + 300, delay_call 20)])
  else
    ({| relay := relay g; vReal := fst b; vImag := snd b;
        lastSnapTime := lastSnapTime g; snapCount := snapCount g |},
     t2 + 20,
     cycle_head t t1 ++ [(t2, delay_call 20)]).
Proof.
  cbv zeta.
  unfold loop, frame_isSnap, frame_peak, frame, spectrum, cycle_head, snap_branch.
  cbv [bind ret emit elapse i2s_read fft_call millis delay fst snd app].
  destruct (find_peak _) as [peak k].
  destruct (isSnap (dominantFreq k) peak); [|reflexivity].
  unfold Relay.toggle. destruct (Relay.state (relay g)); reflexivity.
Qed.

Lemma write_times_snap_cycle r t t1 t2 t3 :
  write_times (cycle_head t t1 ++ snap_branch r t2 ++ [(t3, delay_call 20)]) = [t2].
Proof.
  unfold snap_branch. rewrite !write_times_app. cbn [cycle_head write_times app].
  rewrite write_times_app, toggle_write_times. reflexivity.
Qed.

Lemma loop_write_times fft e g t :
  write_times (calls (loop fft e g t)) =
  if frame_isSnap fft (frame e) g then [t + ans_wait (rd e) + cpu_ms e] else [].
Proof.
  pose proof (loop_result fft e g t) as L. cbv zeta in L. rewrite L.
  destruct (frame_isSnap fft (frame e) g); cbn [calls snd].
  - apply write_times_snap_cycle.
  - reflexivity.
Qed.

Lemma loop_trigger_times fft e g t :
  trigger_times (calls (loop fft e g t)) =
  if frame_isSnap fft (frame e) g then [t + ans_wait (rd e) + cpu_ms e] else [].
Proof. exact (loop_write_times fft e g t). Qed.

Lemma loop_clock fft e g t :
  clock_after (loop fft e g t) =
  t + ans_wait (rd e) + cpu_ms e + (if frame_isSnap fft (frame e) g then 300 else 0) + 20.
Proof.
  pose proof (loop_result fft e g t) as L. cbv zeta in L. rewrite L.
  destruct (frame_isSnap fft (frame e) g); cbn [clock_after fst snd]; lia.
Qed.

Lemma loop_calls fft e g t :
  let t1 := t + ans_wait (rd e) in
  let t2 := t1 + cpu_ms e in
  let snap := frame_isSnap fft (frame e) g in
  calls (loop fft e g t) =
  cycle_head t t1
  ++ (if snap then snap_branch (relay g) t2 else [])
  ++ [(t2 + (if snap then 300 else 0), delay_call 20)].
Proof.
  pose proof (loop_result fft e g t) as L. cbv zeta in L. cbv zeta. rewrite L.
  destruct (frame_isSnap fft (frame e) g); cbn [calls snd].
  - reflexivity.
  - now rewrite Z.add_0_r.
Qed.

Lemma loop_fired fft e g t :
  fired (calls (loop fft e g t)) = frame_isSnap fft (frame e) g.
Proof.
  unfold fired. rewrite loop_trigger_times.
  now destruct (frame_isSnap fft (frame e) g).
Qed.

Lemma filter_snap_branch (p : event -> bool) r t2 :
  filter p (snap_branch r t2) =
  filter p [(t2, millis_call);
            (t2, Serial_println "👏 Double snap detected! Trigger!")]
  ++ filter p (calls (Relay.toggle r t2))
  ++ filter p [(t2, delay_call 300)].
Proof.
  unfold snap_branch.
  change ((t2, millis_call)
          :: (t2, Serial_println "👏 Double snap detected! Trigger!")
          :: calls (Relay.toggle r t2) ++ [(t2, delay_call 300)])
    with ([(t2, millis_call);
           (t2, Serial_println "👏 Double snap detected! Trigger!")]
          ++ calls (Relay.toggle r t2) ++ [(t2, delay_call 300)]).
  now rewrite !filter_app.
Qed.

Ltac filter_loop_calls fft e g t no_such :=
  let L := fresh "L" in
  pose proof (loop_calls fft e g t) as L; cbv zeta in L; rewrite L;
  rewrite !filter_app;
  destruct (frame_isSnap fft (frame e) g);
  [rewrite filter_snap_branch, no_such | ]; reflexivity.

Lemma loop_fft_calls fft e g t :
  filter is_fft (calls (loop fft e g t)) =
  let t1 := t + ans_wait (rd e) in
  [(t1, FFT_windowing); (t1, FFT_compute); (t1, FFT_complexToMagnitude)].
Proof. filter_loop_calls fft e g t toggle_no_fft. Qed.


Lemma loop_reads fft e g t :
  filter is_i2s_read (calls (loop fft e g t)) =
  [(t, i2s_read_call I2S_PORT (4 * Z.of_nat SAMPLES) portMAX_DELAY)].
Proof. filter_loop_calls fft e g t toggle_no_read. Qed.

Lemma loop_lastSnapTime fft e g t :
  lastSnapTime (value (loop fft e g t)) = lastSnapTime g.
Proof.
  pose proof (loop_result fft e g t) as L. cbv zeta in L. rewrite L.
  now destruct (frame_isSnap fft (frame e) g).
Qed.

Lemma loop_relay_kept fft e g t :
  frame_isSnap fft (frame e) g = false -> relay (value (loop fft e g t)) = relay g.
Proof.
  intro H. pose proof (loop_result fft e g t) as L. cbv zeta in L.
  rewrite L, H. reflexivity.
Qed.



(* ------------------------------------------------------------------ *)
(** ** Runs of the loop                                                *)
(* ------------------------------------------------------------------ *)

Lemma run_cons_calls fft e es g t :
  calls (run fft (e :: es) g t) =
  calls (loop fft e g t)
  ++ calls (run fft es (value (loop fft e g t)) (clock_after (loop fft e g t))).
Proof. cbn [run]. apply bind_calls. Qed.

Lemma run_cons_clock fft e es g t :
  clock_after (run fft (e :: es) g t) =
  clock_after (run fft es (value (loop fft e g t)) (clock_after (loop fft e g t))).
Proof. cbn [run]. apply bind_clock. Qed.

Lemma run_reads fft es :
  forall g t, length (filter is_i2s_read (calls (run fft es g t))) = length es.
Proof.
  induction es as [|e es IH]; intros g t; [reflexivity|].
  rewrite run_cons_calls, filter_app, length_app, loop_reads, IH. reflexivity.
Qed.

Lemma with_status_same fft e err n g t :
  loop fft (with_status e err n) g t = loop fft e g t.
Proof.
  pose proof (loop_result fft (with_status e err n) g t) as L1.
  pose proof (loop_result fft e g t) as L2. cbv zeta in L1, L2.
  change (frame (with_status e err n)) with (frame e) in L1.
  change (ans_wait (rd (with_status e err n))) with (ans_wait (rd e)) in L1.
  change (cpu_ms (with_status e err n)) with (cpu_ms e) in L1.
  rewrite L1, L2. reflexivity.
Qed.

(** C5, amended.  The loop never looks at the status or the byte count of
    the read: whatever they are, the pass is the one made on the same
    buffer contents after a good read.  It runs the three FFT calls,
    drives the relay exactly when that buffer classifies as a snap, and
    the next pass follows: over any list of cycles there is one read per
    cycle, with no count of failures and no fatal exit. *)
Theorem loop_ignores_read_status (fft : ArduinoFFT) (e : cycle) (g : globals)
  (t err : Z) (n : option Z) (es : list cycle) :
  let r := loop fft (with_status e err n) g t in
  r = loop fft e g t
  /\ filter is_fft (calls r)
     = [(t + ans_wait (rd e), FFT_windowing); (t + ans_wait (rd e), FFT_compute);
        (t + ans_wait (rd e), FFT_complexToMagnitude)]
  /\ fired (calls r) = frame_isSnap fft (frame e) g
  /\ length (filter is_i2s_read (calls (run fft es g t))) = length es.
Proof.
  cbv zeta. rewrite with_status_same.
  split; [reflexivity|]. split; [apply loop_fft_calls|].
  split; [apply loop_fired | apply run_reads].
Qed.

(** C5, as stated, fails: after a read that failed, the three FFT calls
    are made on what the buffer holds and the relay is driven when that
    classifies as a snap; a hundred failed reads in a row are a hundred
    passes, each with its read. *)
Lemma failed_read_is_processed :
  let r := loop plain_fft (failed_cycle loud_frame) boot 1000 in
  ans_ret (rd (failed_cycle loud_frame)) <> ESP_OK
  /\ filter is_fft (calls r)
     = [(1000, FFT_windowing); (1000, FFT_compute); (1000, FFT_complexToMagnitude)]
  /\ trigger_times (calls r) = [1003]
  /\ length (filter is_i2s_read
               (calls (run plain_fft (repeat (failed_cycle quiet_frame) 100) boot 0)))
     = 100%nat.
Proof.
  cbv zeta. split; [discriminate|].
  split; [vm_compute; reflexivity|].
  split; vm_compute; reflexivity.
Qed.

(* ------------------------------------------------------------------ *)
(** ** Silence                                                         *)
(* ------------------------------------------------------------------ *)

Lemma nth_all_zero (buffer : list Z) (i : nat) :
  Forall (fun w => w = 0) buffer -> nth i buffer 0 = 0.
Proof.
  intro H. destruct (Nat.lt_ge_cases i (length buffer)) as [Hlt|Hge].
  - rewrite Forall_forall in H. apply H. now apply nth_In.
  - now apply nth_overflow.
Qed.

Lemma fill_all_zero (buffer : list Z) (re im : list Q) :
  Forall (fun w => w = 0) buffer ->
  length re = SAMPLES -> length im = SAMPLES ->
  all_zero (fill buffer (re, im)).
Proof.
  intros Hz Hre Him.
  destruct (fill_spec buffer re im) as (L1 & _ & Hv & _).
  split.
  - apply Forall_forall. intros x Hx.
    destruct (In_nth _ _ 0%Q Hx) as (i & Hi & <-).
    rewrite L1 in Hi. rewrite Hv by lia.
    rewrite (nth_all_zero buffer i Hz). reflexivity.
  - rewrite fill_imag_zero by exact Him.
    apply Forall_forall. intros x Hx. apply repeat_spec in Hx. now subst x.
Qed.

Lemma plain_fft_zero_preserving : zero_preserving plain_fft.
Proof.
  intros b Hb. split; [exact Hb|]. split; [exact Hb|].
  destruct Hb as [Hre Him]. split; [|exact Him].
  cbn. apply Forall_forall. intros x Hx.
  apply in_map_iff in Hx. destruct Hx as (y & <- & Hy).
  rewrite Forall_forall in Hre. rewrite (Hre y Hy). reflexivity.
Qed.

Lemma silent_frame_peak fft e g :
  zero_preserving fft ->
  length (vReal g) = SAMPLES -> length (vImag g) = SAMPLES ->
  Forall (fun w => w = 0) (frame e) ->
  frame_peak fft (frame e) g = (0%Q, 0%nat).
Proof.
  intros Hfft Hre Him Hz. unfold frame_peak, spectrum.
  apply find_peak_zero.
  pose proof (fill_all_zero _ _ _ Hz Hre Him) as H0.
  destruct (Hfft _ H0) as (H1 & _ & _).
  destruct (Hfft _ H1) as (_ & H2 & _).
  destruct (Hfft _ H2) as (_ & _ & H3).
  exact (proj1 H3).
Qed.

(** C7. On a frame of zero samples, with a transform that sends zeros to
    zeros, the peak is 0 (at bin 0), the classifier answers false, and the
    pass neither drives the relay nor changes it. *)
Theorem silent_frame_no_snap (fft : ArduinoFFT) (e : cycle) (g : globals) (t : Z)
  (Hfft : zero_preserving fft)
  (Hre : length (vReal g) = SAMPLES) (Him : length (vImag g) = SAMPLES)
  (Hz : Forall (fun w => w = 0) (frame e)) :
  frame_peak fft (frame e) g = (0%Q, 0%nat)
  /\ frame_isSnap fft (frame e) g = false
  /\ trigger_times (calls (loop fft e g t)) = []
  /\ relay (value (loop fft e g t)) = relay g.
Proof.
  pose proof (silent_frame_peak fft e g Hfft Hre Him Hz) as P.
  assert (Hs : frame_isSnap fft (frame e) g = false).
  { unfold frame_isSnap. rewrite P. reflexivity. }
  split; [exact P|]. split; [exact Hs|]. split.
  - rewrite loop_trigger_times, Hs. reflexivity.
  - apply loop_relay_kept, Hs.
Qed.

(** The same for [plain_fft], in the middle of a run. *)
Lemma silent_frame_no_snap_witness :
  frame_peak plain_fft (frame quiet_cycle) later_globals = (0%Q, 0%nat)
  /\ frame_isSnap plain_fft (frame quiet_cycle) later_globals = false
  /\ trigger_times (calls (loop plain_fft quiet_cycle later_globals 5000)) = []
  /\ relay (value (loop plain_fft quiet_cycle later_globals 5000)) = relay later_globals.
Proof.
  apply (silent_frame_no_snap plain_fft quiet_cycle later_globals 5000).
  - exact plain_fft_zero_preserving.
  - reflexivity.
  - reflexivity.
  - unfold frame, quiet_cycle, quiet_frame, answer_ok. cbn [rd ans_data].
    apply Forall_forall. intros x Hx. apply repeat_spec in Hx. exact Hx.
Defined.

(* ------------------------------------------------------------------ *)
(** ** The verdict of a pass                                           *)
(* ------------------------------------------------------------------ *)

Lemma isSnap_Qeq (f1 f2 p1 p2 : Q) :
  (f1 == f2)%Q -> (p1 == p2)%Q -> isSnap f1 p1 = isSnap f2 p2.
Proof.
  intros Hf Hp. apply Bool.eq_true_iff_eq. rewrite !isSnap_iff.
  split; intros (A & B & C); repeat split; lra.
Qed.

Lemma frame_isSnap_pair fft buffer g :
  frame_isSnap fft buffer g =
  isSnap (dominantFreq (snd (frame_peak fft buffer g))) (fst (frame_peak fft buffer g)).
Proof. unfold frame_isSnap. now destruct (frame_peak fft buffer g). Qed.

(** C8. Whether a pass drives the relay is the classifier applied to the
    dominant frequency and the peak of its frame, and to nothing else: two
    passes whose frames give the same pair reach the same verdict, whatever
    the relay state, [lastSnapTime], [snapCount], the old array contents
    and the clock are. *)
Theorem verdict_depends_on_pair_only (fft : ArduinoFFT) (e1 e2 : cycle)
  (g1 g2 : globals) (t1 t2 : Z)
  (Hf : (dominantFreq (snd (frame_peak fft (frame e1) g1))
         == dominantFreq (snd (frame_peak fft (frame e2) g2)))%Q)
  (Hp : (fst (frame_peak fft (frame e1) g1)
         == fst (frame_peak fft (frame e2) g2))%Q) :
  fired (calls (loop fft e1 g1 t1))
  = isSnap (dominantFreq (snd (frame_peak fft (frame e1) g1)))
           (fst (frame_peak fft (frame e1) g1))
  /\ fired (calls (loop fft e2 g2 t2)) = fired (calls (loop fft e1 g1 t1)).
Proof.
  rewrite !loop_fired, !frame_isSnap_pair. split; [reflexivity|].
  symmetry. now apply isSnap_Qeq.
Qed.

(** The same frame at start-up and in the middle of a run. *)
Lemma verdict_depends_on_pair_only_witness :
  fired (calls (loop plain_fft loud_cycle boot 1000))
  = isSnap (dominantFreq (snd (frame_peak plain_fft (frame loud_cycle) boot)))
           (fst (frame_peak plain_fft (frame loud_cycle) boot))
  /\ fired (calls (loop plain_fft loud_cycle later_globals 999999))
     = fired (calls (loop plain_fft loud_cycle boot 1000)).
Proof.
  apply (verdict_depends_on_pair_only plain_fft loud_cycle loud_cycle
           boot later_globals 1000 999999).
  - vm_compute. reflexivity.
  - vm_compute. reflexivity.
Defined.

(* ------------------------------------------------------------------ *)
(** ** Spacing of the triggers                                         *)
(* ------------------------------------------------------------------ *)

Lemma run_triggers (fft : ArduinoFFT) (d : Z) (es : list cycle) :
  d <= 320 ->
  forall g t, Forall time_flows es ->
    let ts := trigger_times (calls (run fft es g t)) in
    spaced d ts /\ Forall (fun x => t <= x) ts.
Proof.
  intro Hd. induction es as [|e es IH]; intros g t Hes; cbv zeta.
  - split; constructor.
  - inversion Hes as [|e' es' [Hw Hc] Hes']; subst.
    unfold trigger_times. rewrite run_cons_calls, write_times_app.
    rewrite loop_write_times.
    specialize (IH (value (loop fft e g t)) (clock_after (loop fft e g t)) Hes').
    cbv zeta in IH. unfold trigger_times in IH. destruct IH as [IHs IHf].
    pose proof (loop_clock fft e g t) as Hclk.
    destruct (frame_isSnap fft (frame e) g) eqn:Esnap; cbn [app].
    + split.
      * constructor; [exact IHs|].
        eapply Forall_impl; [|exact IHf]. cbn beta. intros x Hx. lia.
      * constructor; [lia|].
        eapply Forall_impl; [|exact IHf]. cbn beta. intros x Hx. lia.
    + split; [exact IHs|].
      eapply Forall_impl; [|exact IHf]. cbn beta. intros x Hx. lia.
Qed.

Lemma window_empty_after (w d : Z) (l : list Z) :
  Forall (fun b => w + d <= b) l -> in_window w d l = 0%nat.
Proof.
  unfold in_window. induction 1 as [|b l Hb _ IH]; [reflexivity|].
  cbn [filter]. replace (b <? w + d) with false by (symmetry; apply Z.ltb_ge; lia).
  rewrite Bool.andb_false_r. exact IH.
Qed.

Lemma spaced_window (d : Z) (ts : list Z) :
  spaced d ts -> forall w, (in_window w d ts <= 1)%nat.
Proof.
  unfold spaced. induction 1 as [|x l Hl IH Hx]; intro w.
  - cbn. lia.
  - unfold in_window. cbn [filter].
    destruct ((w <=? x) && (x <? w + d)) eqn:E.
    + apply Bool.andb_true_iff in E. destruct E as [E1 E2].
      apply Z.leb_le in E1. apply Z.ltb_lt in E2.
      cbn [length].
      assert (E0 : in_window w d l = 0%nat).
      { apply window_empty_after.
        eapply Forall_impl; [|exact Hx]. cbn beta. intros b Hb. lia. }
      unfold in_window in E0. rewrite E0. lia.
    + apply IH.
Qed.

(** C1. Over any run of the loop in which time does not go backwards, any
    two times at which the relay is driven are at least 300 ms apart, so no
    window of 300 ms holds more than one trigger: after a trigger the next
    one comes no sooner than 300 ms later. *)
Theorem triggers_spaced (fft : ArduinoFFT) (es : list cycle) (g : globals) (t : Z)
  (Hes : Forall time_flows es) :
  let ts := trigger_times (calls (run fft es g t)) in
  spaced 300 ts /\ forall w, (in_window w 300 ts <= 1)%nat.
Proof.
  cbv zeta.
  destruct (run_triggers fft 300 es ltac:(lia) g t Hes) as [Hs _].
  split; [exact Hs | apply spaced_window, Hs].
Qed.

(** Three snaps and a silent frame. *)
Lemma triggers_spaced_witness :
  Forall time_flows [loud_cycle; loud_cycle; quiet_cycle; loud_cycle]
  /\ let ts := trigger_times
                 (calls (run plain_fft [loud_cycle; loud_cycle; quiet_cycle; loud_cycle]
                           boot 1000)) in
     spaced 300 ts /\ forall w, (in_window w 300 ts <= 1)%nat.
Proof.
  assert (H : Forall time_flows [loud_cycle; loud_cycle; quiet_cycle; loud_cycle]).
  { repeat constructor; cbn; lia. }
  split; [exact H|].
  apply (triggers_spaced plain_fft [loud_cycle; loud_cycle; quiet_cycle; loud_cycle]
           boot 1000 H).
Defined.

(* ------------------------------------------------------------------ *)
(** ** The rational model against binary32                             *)
(* ------------------------------------------------------------------ *)

Lemma holds_from_spec (p : Z -> bool) (n : nat) :
  forall lo, Binary32.holds_from p lo n = true ->
    forall z, lo <= z < lo + Z.of_nat n -> p z = true.
Proof.
  induction n as [|n IH]; intros lo H z Hz; [lia|].
  cbn [Binary32.holds_from] in H. apply Bool.andb_true_iff in H.
  destruct H as [H0 H1].
  destruct (Z.eq_dec z lo) as [->|Hne]; [exact H0|].
  apply (IH (lo + 1) H1). lia.
Qed.

(** Every [int16_t] value is cast to the float that stands for it. *)
Lemma sample_cast_exact (z : Z) :
  - 2 ^ 15 <= z < 2 ^ 15 -> Binary32.cast_exact z = true.
Proof.
  intro Hz.
  apply (holds_from_spec Binary32.cast_exact (Z.to_nat (2 ^ 16)) (- 2 ^ 15)).
  - vm_compute. reflexivity.
  - rewrite Z2Nat.id by lia. lia.
Qed.

(** At every bin the scan can return, the binary32 product is exactly
    the rational [dominantFreq], and the band tests give the same
    answers. *)
Lemma dominantFreq_exact (k : nat) :
  (k < SAMPLES / 2)%nat -> Binary32.freq_agrees (Z.of_nat k) = true.
Proof.
  intro Hk.
  apply (holds_from_spec Binary32.freq_agrees (SAMPLES / 2) 0).
  - vm_compute. reflexivity.
  - change (SAMPLES / 2)%nat with 256%nat in *. lia.
Qed.

(** Start-up leaves the relay recorded off and the pin low. *)
Lemma setup_relay_off (t : Z) :
  value (setup boot t) = boot
  /\ pin_level 20 (calls (setup boot t)) = Some LOW.
Proof. split; reflexivity. Qed.

(* ------------------------------------------------------------------ *)
(** ** Comparison of floats is comparison of the numbers               *)
(* ------------------------------------------------------------------ *)

Section Binary32Order.
Import Binary32.

Lemma digits2_bounds (m : positive) :
  2 ^ (Z.pos (digits2_pos m) - 1) <= Z.pos m < 2 ^ Z.pos (digits2_pos m).
Proof.
  induction m as [m IH|m IH|]; cbn [digits2_pos].
  - rewrite Pos2Z.inj_succ.
    replace (Z.succ (Z.pos (digits2_pos m)) - 1) with (Z.succ (Z.pos (digits2_pos m) - 1)) by lia.
    rewrite !Z.pow_succ_r by lia. lia.
  - rewrite Pos2Z.inj_succ.
    replace (Z.succ (Z.pos (digits2_pos m)) - 1) with (Z.succ (Z.pos (digits2_pos m) - 1)) by lia.
    rewrite !Z.pow_succ_r by lia. lia.
  - cbn. lia.
Qed.

Lemma canonical_digits (m : positive) (e : Z) :
  canonical_mantissa prec emax m e = true ->
  emin prec emax <= e
  /\ Z.pos (digits2_pos m) <= prec
  /\ (emin prec emax < e -> Z.pos (digits2_pos m) = prec).
Proof.
  unfold canonical_mantissa, fexp. intro H. apply Z.eqb_eq in H.
  lia.
Qed.

Lemma two_power_pos (e : Z) : (0 < 2 ^ e)%Q.
Proof. apply Qpower_0_lt. reflexivity. Qed.

Lemma mag_pos m e : (0 < mag m e)%Q.
Proof.
  unfold mag. apply Qmult_lt_0_compat; [|apply two_power_pos].
  change 0%Q with (inject_Z 0). rewrite <- Zlt_Qlt. lia.
Qed.

Lemma mag_lt_exp m1 e1 m2 e2 :
  canonical_mantissa prec emax m1 e1 = true ->
  canonical_mantissa prec emax m2 e2 = true ->
  e1 < e2 -> (mag m1 e1 < mag m2 e2)%Q.
Proof.
  intros C1 C2 He.
  destruct (canonical_digits _ _ C1) as (L1 & D1 & _).
  destruct (canonical_digits _ _ C2) as (_ & _ & D2).
  specialize (D2 ltac:(lia)).
  pose proof (digits2_bounds m1) as [_ B1].
  pose proof (digits2_bounds m2) as [B2 _].
  rewrite D2 in B2.
  assert (P1 : 2 ^ Z.pos (digits2_pos m1) <= 2 ^ prec)
    by (apply Z.pow_le_mono_r; lia).
  assert (P2 : 2 ^ 1 <= 2 ^ (e2 - e1)) by (apply Z.pow_le_mono_r; lia).
  assert (Hz : Z.pos m1 < Z.pos m2 * 2 ^ (e2 - e1)).
  { assert (E : 2 ^ prec = 2 ^ (prec - 1) * 2 ^ 1) by reflexivity.
    nia. }
  unfold mag.
  assert (E2 : (2 ^ e2 == 2 ^ (e2 - e1) * 2 ^ e1)%Q).
  { rewrite <- Qpower_plus by (intro H; discriminate H).
    replace (e2 - e1 + e1) with e2 by lia. reflexivity. }
  rewrite E2.
  assert (E3 : (2 ^ (e2 - e1) == inject_Z (2 ^ (e2 - e1)))%Q).
  { rewrite Zpower_Qpower by lia. reflexivity. }
  rewrite E3, Qmult_assoc, <- inject_Z_mult.
  apply Qmult_lt_compat_r; [apply two_power_pos|].
  rewrite <- Zlt_Qlt. exact Hz.
Qed.

Lemma mag_lt_man m1 m2 e : (m1 < m2)%positive -> (mag m1 e < mag m2 e)%Q.
Proof.
  intro H. unfold mag. apply Qmult_lt_compat_r; [apply two_power_pos|].
  rewrite <- Zlt_Qlt. lia.
Qed.

Lemma mag_compare m1 e1 m2 e2 :
  canonical_mantissa prec emax m1 e1 = true ->
  canonical_mantissa prec emax m2 e2 = true ->
  ordered (match e1 ?= e2 with
           | Lt => Lt
           | Gt => Gt
           | Eq => Pos.compare_cont Eq m1 m2
           end) (mag m1 e1) (mag m2 e2).
Proof.
  intros C1 C2. destruct (Z.compare_spec e1 e2) as [->|He|He].
  - change (Pos.compare_cont Eq m1 m2) with (Pos.compare m1 m2).
    destruct (Pos.compare_spec m1 m2) as [->|Hm|Hm]; cbn.
    + reflexivity.
    + now apply mag_lt_man.
    + now apply mag_lt_man.
  - cbn. now apply mag_lt_exp.
  - cbn. now apply mag_lt_exp.
Qed.

Lemma val_finite s m e :
  val (S754_finite s m e) = (if s then inject_Z (Z.neg m) * 2 ^ e else mag m e)%Q.
Proof. now destruct s. Qed.

Lemma neg_mag m e : (inject_Z (Z.neg m) * 2 ^ e == - mag m e)%Q.
Proof.
  unfold mag. change (Z.neg m) with (- Z.pos m). rewrite inject_Z_opp. ring.
Qed.

Lemma SFltb_val (x y : spec_float) :
  well_formed x = true -> well_formed y = true ->
  SFltb x y = true <-> (val x < val y)%Q.
Proof.
  unfold well_formed. intros Hx Hy.
  apply andb_true_iff in Hx. destruct Hx as [Vx Fx].
  apply andb_true_iff in Hy. destruct Hy as [Vy Fy].
  destruct x as [sx|sx| |sx mx ex]; try discriminate Fx;
  destruct y as [sy|sy| |sy my ey]; try discriminate Fy.
  - cbn. split; [discriminate | intro H; lra].
  - rewrite val_finite. pose proof (mag_pos my ey) as P.
    pose proof (neg_mag my ey) as N.
    unfold SFltb, SFcompare. change (val (S754_zero sx)) with 0%Q.
    destruct sy; split; intro H; try discriminate H; try reflexivity; lra.
  - rewrite val_finite. pose proof (mag_pos mx ex) as P.
    pose proof (neg_mag mx ex) as N.
    unfold SFltb, SFcompare. change (val (S754_zero sy)) with 0%Q.
    destruct sx; split; intro H; try discriminate H; try reflexivity; lra.
  - cbn [valid_binary] in Vx, Vy. unfold bounded in Vx, Vy.
    apply andb_true_iff in Vx. destruct Vx as [Cx _].
    apply andb_true_iff in Vy. destruct Vy as [Cy _].
    rewrite !val_finite.
    pose proof (mag_pos mx ex) as Px. pose proof (mag_pos my ey) as Py.
    pose proof (neg_mag mx ex) as Nx. pose proof (neg_mag my ey) as Ny.
    pose proof (mag_compare mx ex my ey Cx Cy) as O.
    unfold SFltb, SFcompare.
    assert (Eopp : match ex ?= ey with
                   | Lt => Gt
                   | Gt => Lt
                   | Eq => CompOpp (Pos.compare_cont Eq mx my)
                   end
                   = CompOpp (match ex ?= ey with
                              | Lt => Lt
                              | Gt => Gt
                              | Eq => Pos.compare_cont Eq mx my
                              end))
      by now destruct (ex ?= ey).
    destruct sx, sy.
    + rewrite Eopp.
      destruct (match ex ?= ey with
                | Lt => Lt | Gt => Gt | Eq => Pos.compare_cont Eq mx my end);
        cbn in O |- *; split; intro H; try discriminate H; try reflexivity; lra.
    + split; intro H; [lra | reflexivity].
    + split; intro H; [discriminate H | lra].
    + destruct (match ex ?= ey with
                | Lt => Lt | Gt => Gt | Eq => Pos.compare_cont Eq mx my end);
        cbn in O |- *; split; intro H; try discriminate H; try reflexivity; lra.
Qed.

(** The constants of the classifier are cast exactly. *)
Lemma of_int_constants :
  (val (of_int 2000) == 2000)%Q /\ (val (of_int 5000) == 5000)%Q
  /\ (val (of_int 6000) == 6000)%Q
  /\ well_formed (of_int 2000) = true /\ well_formed (of_int 5000) = true
  /\ well_formed (of_int 6000) = true.
Proof. repeat split; vm_compute; reflexivity. Qed.

Lemma SFltb_Qgtb (x y : spec_float) :
  well_formed x = true -> well_formed y = true ->
  SFltb x y = Sound.Qgtb (val y) (val x).
Proof.
  intros Hx Hy. apply Bool.eq_true_iff_eq.
  rewrite Qgtb_iff. now apply SFltb_val.
Qed.

End Binary32Order.

(* ------------------------------------------------------------------ *)
(** ** The scan and the classifier on floats and on rationals          *)
(* ------------------------------------------------------------------ *)

Section Binary32Refinement.

Variable v : list spec_float.
Hypothesis v_well_formed : Forall (fun x => Binary32.well_formed x = true) v.

Lemma nth_well_formed (i : nat) : Binary32.well_formed (nth i v (S754_zero false)) = true.
Proof.
  destruct (Nat.lt_ge_cases i (length v)) as [Hlt|Hge].
  - rewrite Forall_forall in v_well_formed. apply v_well_formed. now apply nth_In.
  - rewrite nth_overflow by exact Hge. reflexivity.
Qed.

Lemma nth_map_val (i : nat) :
  nth i (map Binary32.val v) 0%Q = Binary32.val (nth i v (S754_zero false)).
Proof. exact (map_nth Binary32.val v (S754_zero false) i). Qed.

Lemma scan_step_refines (a : spec_float * nat) (a' : Q * nat) (i : nat) :
  scans_agree a a' ->
  scans_agree (Binary32.scan_step v a i) (scan_step (map Binary32.val v) a' i).
Proof.
  intros (Hw & Hk & Hp).
  unfold Binary32.scan_step, scan_step.
  rewrite nth_map_val, <- Hp.
  rewrite (SFltb_Qgtb (fst a) (nth i v (S754_zero false)) Hw (nth_well_formed i)).
  destruct (Qgtb (Binary32.val (nth i v (S754_zero false))) (Binary32.val (fst a))).
  - split; [apply nth_well_formed|]. split; reflexivity.
  - split; [exact Hw|]. split; assumption.
Qed.

Lemma scan_refines (l : list nat) :
  forall a a', scans_agree a a' ->
    scans_agree (fold_left (Binary32.scan_step v) l a)
                (fold_left (scan_step (map Binary32.val v)) l a').
Proof.
  induction l as [|i l IH]; intros a a' H; [exact H|].
  cbn [fold_left]. apply IH. now apply scan_step_refines.
Qed.

Lemma find_peak_refines :
  scans_agree (Binary32.find_peak v) (find_peak (map Binary32.val v)).
Proof.
  unfold Binary32.find_peak, find_peak. apply scan_refines.
  split; [reflexivity|]. split; reflexivity.
Qed.

Lemma find_peak_bin_bound (u : list Q) : (snd (find_peak u) < SAMPLES / 2)%nat.
Proof.
  destruct (find_peak_scanned u) as [(Hk & _) | (Hk & _)].
  - rewrite Hk. change (SAMPLES / 2)%nat with 256%nat. lia.
  - lia.
Qed.

Lemma Qgtb_Qeq (x y y' : Q) : (y == y')%Q -> Qgtb x y = Qgtb x y'.
Proof.
  intro E. apply Bool.eq_true_iff_eq. rewrite !Qgtb_iff.
  split; intro H; lra.
Qed.

(** X19. On magnitudes that are finite floats, the verdict [loop()]
    computes with float comparisons and the float product is the verdict of
    the rational model on the numbers they stand for. *)
Lemma verdict_refines :
  Binary32.verdict v
  = isSnap (dominantFreq (snd (find_peak (map Binary32.val v))))
           (fst (find_peak (map Binary32.val v))).
Proof.
  destruct find_peak_refines as (Hw & Hk & Hp).
  pose proof (find_peak_bin_bound (map Binary32.val v)) as Hb.
  unfold Binary32.verdict.
  destruct (Binary32.find_peak v) as [peak k]. cbn [fst snd] in Hw, Hk, Hp.
  rewrite <- Hk, <- Hp. rewrite <- Hk in Hb.
  pose proof (dominantFreq_exact k Hb) as A.
  unfold Binary32.freq_agrees in A. rewrite Nat2Z.id in A. cbv zeta in A.
  apply Bool.andb_true_iff in A. destruct A as [A A3].
  apply Bool.andb_true_iff in A. destruct A as [_ A2].
  apply Bool.eqb_prop in A2. apply Bool.eqb_prop in A3.
  unfold Binary32.isSnap, isSnap. rewrite A2, A3.
  destruct of_int_constants as (_ & _ & E6 & _ & _ & W6).
  rewrite (SFltb_Qgtb _ _ W6 Hw).
  rewrite (Qgtb_Qeq _ _ _ E6). reflexivity.
Qed.

End Binary32Refinement.

(* ------------------------------------------------------------------ *)
(** ** Relay: any sequence of calls                                    *)
(* ------------------------------------------------------------------ *)

Lemma value_bind {A B} (m : Hw A) (k : A -> Hw B) (t : Z) :
  value (bind m k t) = value (k (value (m t)) (clock_after (m t))).
Proof.
  unfold bind, calls, value, clock_after.
  destruct (m t) as [[a t1] c1]. cbn. now destruct (k a t1) as [[b t2] c2].
Qed.

Lemma drive_level_invert (r r' : Relay.t) (s : bool) :
  Relay.invertLogic r' = Relay.invertLogic r ->
  Relay.drive_level r' s = Relay.drive_level r s.
Proof. unfold Relay.drive_level. now intros ->. Qed.

(** What one call does to the record, to its own pin and to other pins. *)
Lemma relay_do_effect (o : relay_op) (r : Relay.t) (t : Z) :
  let res := relay_do o r t in
  Relay.pin (value res) = Relay.pin r
  /\ Relay.invertLogic (value res) = Relay.invertLogic r
  /\ pin_level (Relay.pin r) (calls res)
     = Some (Relay.drive_level r (Relay.state (value res)))
  /\ (forall q, q <> Relay.pin r -> pin_level q (calls res) = None).
Proof.
  destruct r as [p s i]. cbv zeta.
  assert (Hq : forall q, q <> p -> (p =? q) = false)
    by (intros q Hq; apply Z.eqb_neq; congruence).
  destruct o as [| | | |s'|d]; [| | |destruct s| destruct s'|];
    destruct i; cbn; rewrite ?Z.eqb_refl;
    (repeat split; try reflexivity;
     intros q Hne; rewrite (Hq q Hne); reflexivity).
Qed.

(** X1. Whatever calls are made on a relay, in whatever order, its pin
    number and polarity stay as constructed, no other pin is written, and
    after at least one call the pin is at the level of the recorded state. *)
Theorem relay_run_consistent (os : list relay_op) (r : Relay.t) (t : Z)
  (Hos : os <> []) :
  let res := relay_run os r t in
  Relay.pin (value res) = Relay.pin r
  /\ Relay.invertLogic (value res) = Relay.invertLogic r
  /\ pin_level (Relay.pin r) (calls res)
     = Some (Relay.drive_level r (Relay.getState (value res)))
  /\ (forall q, q <> Relay.pin r -> pin_level q (calls res) = None).
Proof.
  cbv zeta. revert r t Hos.
  induction os as [|o os IH]; intros r t Hos; [contradiction|].
  cbn [relay_run]. rewrite value_bind, bind_calls.
  destruct (relay_do_effect o r t) as (Hp & Hi & Hl & Hn).
  destruct os as [|o' os].
  - cbn [relay_run]. unfold ret at 1 2 3 4 5.
    cbn [value calls fst snd]. rewrite app_nil_r. auto.
  - specialize (IH (value (relay_do o r t)) (clock_after (relay_do o r t))
                  ltac:(discriminate)).
    destruct IH as (IHp & IHi & IHl & IHn).
    rewrite Hp in IHp, IHl, IHn. rewrite IHi, Hi in *.
    split; [exact IHp|]. split; [reflexivity|]. split.
    + rewrite pin_level_app, IHl.
      f_equal. apply drive_level_invert. exact Hi.
    + intros q Hq. rewrite pin_level_app, (IHn q Hq). apply Hn, Hq.
Qed.

(** A pulse on an inverted relay that is on, then a toggle. *)
Lemma relay_run_consistent_witness :
  let r := {| Relay.pin := 20; Relay.state := true; Relay.invertLogic := true |} in
  let res := relay_run [relay_pulse 50; relay_toggle] r 0 in
  Relay.pin (value res) = Relay.pin r
  /\ Relay.invertLogic (value res) = Relay.invertLogic r
  /\ pin_level (Relay.pin r) (calls res)
     = Some (Relay.drive_level r (Relay.getState (value res)))
  /\ (forall q, q <> Relay.pin r -> pin_level q (calls res) = None).
Proof.
  apply (relay_run_consistent [relay_pulse 50; relay_toggle]
           {| Relay.pin := 20; Relay.state := true; Relay.invertLogic := true |} 0).
  discriminate.
Defined.

Lemma flipped_succ (n : nat) (b : bool) : flipped (S n) b = flipped n (negb b).
Proof.
  unfold flipped. rewrite Nat.odd_succ, <- Nat.negb_odd.
  destruct (Nat.odd n); cbn; [now rewrite Bool.negb_involutive | reflexivity].
Qed.

(** X2. [n] toggles in a row leave the state as it was when [n] is even
    and negated when [n] is odd; they write the pin [n] times and take no
    time. *)
Theorem toggles_parity (n : nat) (r : Relay.t) (t : Z) :
  let res := relay_run (repeat relay_toggle n) r t in
  Relay.getState (value res) = flipped n (Relay.getState r)
  /\ length (write_times (calls res)) = n
  /\ clock_after res = t.
Proof.
  cbv zeta. unfold Relay.getState. revert r.
  induction n as [|n IH]; intro r; [repeat split|].
  cbn [repeat relay_run relay_do].
  rewrite value_bind, bind_calls, bind_clock, write_times_app, length_app.
  rewrite toggle_clock, toggle_write_times.
  destruct (IH (value (Relay.toggle r t))) as (Hs & Hw & Hc).
  rewrite Hs, Hw, Hc, toggle_value, flipped_succ. repeat split.
Qed.

(** X3. [pulse(d)] on a relay in any state writes the pin twice, at the
    start and [d] ms later, takes [d] ms, and leaves the relay recorded
    off with the pin at the off level. *)
Theorem pulse_width (r : Relay.t) (d t : Z) :
  let res := Relay.pulse r d t in
  write_times (calls res) = [t; t + d]
  /\ clock_after res = t + d
  /\ Relay.getState (value res) = false
  /\ pin_level (Relay.pin r) (firstn 1 (calls res)) = Some (Relay.drive_level r true)
  /\ pin_level (Relay.pin r) (calls res) = Some (Relay.drive_level r false).
Proof.
  destruct r as [p s i]. cbv zeta. cbn. rewrite Z.eqb_refl.
  destruct i; repeat split.
Qed.

(* ------------------------------------------------------------------ *)
(** ** LED: any sequence of calls                                      *)
(* ------------------------------------------------------------------ *)

Lemma led_do_effect (o : led_op) (l : LED.t) (t : Z) :
  let res := led_do o l t in
  LED.pin (value res) = LED.pin l
  /\ pin_level (LED.pin l) (calls res)
     = Some (if LED.state (value res) then HIGH else LOW)
  /\ (forall q, q <> LED.pin l -> pin_level q (calls res) = None).
Proof.
  destruct l as [p s]. cbv zeta.
  assert (Hq : forall q, q <> p -> (p =? q) = false)
    by (intros q Hq; apply Z.eqb_neq; congruence).
  destruct o as [| | | |a b]; [| | |destruct s|];
    cbn; rewrite ?Z.eqb_refl;
    (repeat split; try reflexivity;
     intros q Hne; rewrite (Hq q Hne); reflexivity).
Qed.

(** X4. Whatever calls are made on an LED, after at least one of them its
    pin is HIGH exactly when [isOn()] answers true; the pin number stays as
    constructed and no other pin is written. *)
Theorem led_run_consistent (os : list led_op) (l : LED.t) (t : Z)
  (Hos : os <> []) :
  let res := led_run os l t in
  LED.getPin (value res) = LED.getPin l
  /\ pin_level (LED.getPin l) (calls res)
     = Some (if LED.isOn (value res) then HIGH else LOW)
  /\ (forall q, q <> LED.getPin l -> pin_level q (calls res) = None).
Proof.
  cbv zeta. unfold LED.getPin, LED.isOn. revert l t Hos.
  induction os as [|o os IH]; intros l t Hos; [contradiction|].
  cbn [led_run]. rewrite value_bind, bind_calls.
  destruct (led_do_effect o l t) as (Hp & Hl & Hn).
  destruct os as [|o' os].
  - cbn [led_run]. unfold ret at 1 2 3 4.
    cbn [value calls fst snd]. rewrite app_nil_r. auto.
  - specialize (IH (value (led_do o l t)) (clock_after (led_do o l t))
                  ltac:(discriminate)).
    destruct IH as (IHp & IHl & IHn).
    rewrite Hp in IHp, IHl, IHn.
    split; [exact IHp|]. split.
    + rewrite pin_level_app, IHl. reflexivity.
    + intros q Hq. rewrite pin_level_app, (IHn q Hq). apply Hn, Hq.
Qed.

(** A blink, then a toggle, on LED 2. *)
Lemma led_run_consistent_witness :
  let l := LED.new 2 in
  let res := led_run [led_blink 100 200; led_toggle] l 0 in
  LED.getPin (value res) = LED.getPin l
  /\ pin_level (LED.getPin l) (calls res)
     = Some (if LED.isOn (value res) then HIGH else LOW)
  /\ (forall q, q <> LED.getPin l -> pin_level q (calls res) = None).
Proof.
  apply (led_run_consistent [led_blink 100 200; led_toggle] (LED.new 2) 0).
  discriminate.
Defined.

(* ------------------------------------------------------------------ *)
(** ** I2SDevice: the other calls and the life cycle                   *)
(* ------------------------------------------------------------------ *)

(** X5. [write] returns 0 and makes no driver call unless the device is
    initialised and in TX mode; then it makes exactly one [i2s_write] on
    the device's port and returns the count the driver stored through the
    out-parameter: [n] when the driver stored [n], and the 0 the local was
    initialised with when it stored nothing.  For one and the same device,
    [read] and [write] never both reach the driver. *)
Theorem write_guarded (d : I2SDevice.t) (buffer : list Z) (size ticks : Z)
  (a : i2s_answer) (t : Z) :
  let w := I2SDevice.write d size ticks a t in
  let r := I2SDevice.read d buffer size ticks a t in
  let ready := I2SDevice.initialized d && negb (I2SDevice.rx_mode d) in
  value w = (if ready
             then (match ans_bytes a with
                   | Some n => n
                   | None => 0
                   end, d)
             else (0, d))
  /\ filter is_i2s_io (calls w)
     = (if ready then [(t, i2s_write_call (I2SDevice.port d) size ticks)] else [])
  /\ clock_after w = (if ready then t + ans_wait a else t)
  /\ (filter is_i2s_io (calls w) = [] \/ filter is_i2s_io (calls r) = []).
Proof.
  unfold I2SDevice.write, I2SDevice.read.
  destruct (I2SDevice.initialized d), (I2SDevice.rx_mode d); cbn;
    try (repeat split; auto; fail);
    destruct (Z.eqb (ans_ret a) ESP_OK); destruct (ans_bytes a) as [n|]; cbn;
    repeat split; auto.
Qed.

Lemma bind_ret {A B} (m : Hw A) (f : A -> B) (t : Z) :
  bind m (fun x => ret (f x)) t = (f (value (m t)), clock_after (m t), calls (m t)).
Proof.
  unfold bind, ret, value, clock_after, calls.
  destruct (m t) as [[a t1] c]. cbn. now rewrite app_nil_r.
Qed.

Lemma i2s_run_cons_calls o os d t :
  calls (i2s_run (o :: os) d t) =
  calls (i2s_do o d t)
  ++ calls (i2s_run os (value (i2s_do o d t)) (clock_after (i2s_do o d t))).
Proof. cbn [i2s_run]. apply bind_calls. Qed.

Lemma i2s_run_cons_value o os d t :
  value (i2s_run (o :: os) d t) =
  value (i2s_run os (value (i2s_do o d t)) (clock_after (i2s_do o d t))).
Proof. cbn [i2s_run]. apply value_bind. Qed.

Lemma i2s_do_begin d install set_pin t :
  i2s_do (dev_begin install set_pin) d t =
  (snd (value (I2SDevice.begin d install set_pin t)),
   clock_after (I2SDevice.begin d install set_pin t),
   calls (I2SDevice.begin d install set_pin t)).
Proof. cbn [i2s_do]. apply (bind_ret (I2SDevice.begin d install set_pin) snd). Qed.

Lemma begin_cases (d : I2SDevice.t) (install set_pin : Z) (t : Z) :
  let res := I2SDevice.begin d install set_pin t in
  let ok := I2SDevice.initialized d
            || (Z.eqb install ESP_OK && Z.eqb set_pin ESP_OK) in
  value res = (ok, I2SDevice.set_initialized d ok)
  /\ length (filter is_install (calls res))
     = (if I2SDevice.initialized d then 0 else 1)%nat
  /\ filter is_set_pin (calls res)
     = (if negb (I2SDevice.initialized d) && Z.eqb install ESP_OK
        then [(t, i2s_set_pin_call (I2SDevice.port d) (I2SDevice.sck_pin d)
                    (I2SDevice.ws_pin d)
                    (if I2SDevice.rx_mode d then -1 else I2SDevice.sd_pin d)
                    (if I2SDevice.rx_mode d then I2SDevice.sd_pin d else -1))]
        else [])
  /\ filter is_uninstall (calls res) = []
  /\ filter is_i2s_io (calls res) = []
  /\ clock_after res = t.
Proof.
  destruct d as [ty sr ch bps ws sd sck p ini rx]. unfold I2SDevice.begin.
  cbn [I2SDevice.initialized I2SDevice.rx_mode I2SDevice.port I2SDevice.sck_pin
       I2SDevice.ws_pin I2SDevice.sd_pin I2SDevice.type I2SDevice.channels].
  destruct ini; [cbn; repeat split|].
  destruct (Z.eqb install ESP_OK); [|cbn; repeat split].
  destruct (Z.eqb set_pin ESP_OK); destruct rx, ty; cbn; repeat split.
Qed.

(** X6. [begin] returns the value of the initialised flag it leaves: true
    when the device was initialised already (then it calls nothing), or
    when both the driver installation and the pin set-up succeed.  The
    pins are set only after a successful installation, with the data pin
    as input in RX mode and as output in TX mode.  Nothing else of the
    device changes, and [begin] never releases the driver. *)
Theorem begin_returns_initialized (d : I2SDevice.t) (install set_pin : Z) (t : Z) :
  let res := I2SDevice.begin d install set_pin t in
  let ok := I2SDevice.initialized d
            || (Z.eqb install ESP_OK && Z.eqb set_pin ESP_OK) in
  value res = (ok, I2SDevice.set_initialized d ok)
  /\ I2SDevice.isInitialized (snd (value res)) = fst (value res)
  /\ length (filter is_install (calls res))
     = (if I2SDevice.initialized d then 0 else 1)%nat
  /\ filter is_set_pin (calls res)
     = (if negb (I2SDevice.initialized d) && Z.eqb install ESP_OK
        then [(t, i2s_set_pin_call (I2SDevice.port d) (I2SDevice.sck_pin d)
                    (I2SDevice.ws_pin d)
                    (if I2SDevice.rx_mode d then -1 else I2SDevice.sd_pin d)
                    (if I2SDevice.rx_mode d then I2SDevice.sd_pin d else -1))]
        else [])
  /\ filter is_uninstall (calls res) = [].
Proof.
  cbv zeta.
  destruct (begin_cases d install set_pin t) as (Hv & Hi & Hs & Hu & _).
  rewrite Hv. cbn [fst snd]. repeat split; assumption.
Qed.

Lemma set_initialized_same (d : I2SDevice.t) :
  I2SDevice.set_initialized d (I2SDevice.initialized d) = d.
Proof. now destruct d. Qed.

(** X7. On a device that is not initialised, a [begin] that succeeds
    followed by [end] gives back the device as it was, with one driver
    installation and one release; a further [end] does nothing. *)
Theorem begin_end_round_trip (d : I2SDevice.t) (t : Z)
  (Hd : I2SDevice.initialized d = false) :
  let res := i2s_run [dev_begin ESP_OK ESP_OK; dev_end] d t in
  let again := I2SDevice.end_ (value res) (clock_after res) in
  value res = d
  /\ length (filter is_install (calls res)) = 1%nat
  /\ length (filter is_uninstall (calls res)) = 1%nat
  /\ value again = d
  /\ filter is_uninstall (calls again) = [].
Proof.
  destruct d as [ty sr ch bps ws sd sck p ini rx]. cbn in Hd. subst ini.
  cbv zeta. destruct rx, ty; cbn; repeat split.
Qed.

(** The microphone with the constructor's default arguments. *)
Lemma begin_end_round_trip_witness :
  let d := value (I2SDevice.new I2SDevice.DEVICE_MIC 16000 1 16 25 33 32 0 0) in
  let res := i2s_run [dev_begin ESP_OK ESP_OK; dev_end] d 0 in
  let again := I2SDevice.end_ (value res) (clock_after res) in
  value res = d
  /\ length (filter is_install (calls res)) = 1%nat
  /\ length (filter is_uninstall (calls res)) = 1%nat
  /\ value again = d
  /\ filter is_uninstall (calls again) = [].
Proof.
  apply (begin_end_round_trip
           (value (I2SDevice.new I2SDevice.DEVICE_MIC 16000 1 16 25 33 32 0 0)) 0).
  reflexivity.
Defined.

(** X8. When the driver installs but the pin set-up fails, [begin] returns
    false and leaves the device not initialised without releasing the
    driver; a second [begin] then installs the driver again, so that two
    installations and no release have been made. *)
Theorem begin_retry_installs_twice (d : I2SDevice.t) (set_pin install2 set_pin2 t : Z)
  (Hd : I2SDevice.initialized d = false) (Hs : set_pin <> ESP_OK) :
  let first := I2SDevice.begin d ESP_OK set_pin t in
  let both := i2s_run [dev_begin ESP_OK set_pin; dev_begin install2 set_pin2] d t in
  value first = (false, d)
  /\ filter is_uninstall (calls first) = []
  /\ length (filter is_install (calls both)) = 2%nat
  /\ filter is_uninstall (calls both) = [].
Proof.
  cbv zeta. apply Z.eqb_neq in Hs.
  destruct (begin_cases d ESP_OK set_pin t) as (Hv & Hi & _ & Hu & _ & Hc).
  rewrite Hd, Hs in Hv. cbn in Hv. rewrite <- Hd, set_initialized_same in Hv.
  rewrite Hd in Hi.
  split; [rewrite Hv, Hd; reflexivity|]. split; [exact Hu|].
  rewrite !i2s_run_cons_calls, !i2s_do_begin.
  cbn [value calls clock_after fst snd i2s_run]. unfold ret.
  cbn [snd]. rewrite !app_nil_r, !filter_app, !length_app.
  rewrite Hv, Hc. cbn [snd].
  destruct (begin_cases d install2 set_pin2 t) as (_ & Hi2 & _ & Hu2 & _).
  rewrite Hd in Hi2. rewrite Hi, Hi2, Hu, Hu2. split; reflexivity.
Qed.

(** A sensor whose pin set-up fails with [ESP_ERR_INVALID_ARG]. *)
Lemma begin_retry_installs_twice_witness :
  let d := value (I2SDevice.new I2SDevice.DEVICE_SENSOR 16000 2 16 25 33 32 0 0) in
  let first := I2SDevice.begin d ESP_OK ESP_ERR_INVALID_ARG 0 in
  let both := i2s_run [dev_begin ESP_OK ESP_ERR_INVALID_ARG; dev_begin ESP_OK ESP_OK] d 0 in
  value first = (false, d)
  /\ filter is_uninstall (calls first) = []
  /\ length (filter is_install (calls both)) = 2%nat
  /\ filter is_uninstall (calls both) = [].
Proof.
  apply (begin_retry_installs_twice
           (value (I2SDevice.new I2SDevice.DEVICE_SENSOR 16000 2 16 25 33 32 0 0))
           ESP_ERR_INVALID_ARG ESP_OK ESP_OK 0).
  - reflexivity.
  - discriminate.
Defined.

Lemma configured_after_app (c : bool) (a b : list event) :
  configured_after c (a ++ b) = configured_after (configured_after c a) b.
Proof.
  revert c. induction a as [|e a IH]; intro c; [reflexivity|].
  cbn [app configured_after].
  destruct (is_set_pin e); [apply IH|]. destruct (is_uninstall e); apply IH.
Qed.

Lemma driver_use_ok_app (c : bool) (a b : list event) :
  driver_use_ok c (a ++ b)
  = driver_use_ok c a && driver_use_ok (configured_after c a) b.
Proof.
  revert c. induction a as [|e a IH]; intro c; [reflexivity|].
  cbn [app driver_use_ok configured_after].
  destruct (is_set_pin e); [apply IH|].
  destruct (is_uninstall e); [rewrite IH; apply Bool.andb_assoc|].
  destruct (is_i2s_io e); [rewrite IH; apply Bool.andb_assoc | apply IH].
Qed.

Ltac hw_compute :=
  cbv [bind ret emit elapse i2s_read i2s_write value calls clock_after];
  cbn.

Ltac i2s_close :=
  cbn; unfold same_config; cbn; repeat split;
  solve [ discriminate
        | intros; reflexivity
        | intros; discriminate
        | intros _ H; now contradiction H ].

(** What one call does to the device and to the driver. *)
Lemma i2s_do_effect (o : i2s_op) (d : I2SDevice.t) (t : Z) (c : bool) :
  (I2SDevice.initialized d = true -> c = true) ->
  let res := i2s_do o d t in
  same_config d (value res)
  /\ driver_use_ok c (calls res) = true
  /\ (I2SDevice.initialized (value res) = true ->
      configured_after c (calls res) = true)
  /\ (I2SDevice.initialized d = true -> o <> dev_end -> value res = d).
Proof.
  intro Hc. destruct d as [ty sr ch bps ws sd sck p ini rx].
  cbn [I2SDevice.initialized] in Hc. cbv zeta.
  destruct o as [install set_pin|buffer size ticks a|size ticks a|to_rx|].
  - unfold i2s_do, I2SDevice.begin; destruct ini;
      [rewrite (Hc eq_refl); i2s_close|].
    cbn [I2SDevice.initialized negb].
    destruct (Z.eqb install ESP_OK); [|i2s_close].
    destruct (Z.eqb set_pin ESP_OK); destruct rx, ty; i2s_close.
  - unfold i2s_do, I2SDevice.read; destruct ini;
      [rewrite (Hc eq_refl)|]; destruct rx; hw_compute; try i2s_close;
      destruct (Z.eqb (ans_ret a) ESP_OK); i2s_close.
  - unfold i2s_do, I2SDevice.write; destruct ini;
      [rewrite (Hc eq_refl)|]; destruct rx; hw_compute; try i2s_close;
      destruct (Z.eqb (ans_ret a) ESP_OK); i2s_close.
  - unfold i2s_do, I2SDevice.toggleMode; destruct ini;
      [rewrite (Hc eq_refl)|]; destruct to_rx; i2s_close.
  - unfold i2s_do, I2SDevice.end_; destruct ini;
      [rewrite (Hc eq_refl)|]; i2s_close.
Qed.

Lemma same_config_trans (d1 d2 d3 : I2SDevice.t) :
  same_config d1 d2 -> same_config d2 d3 -> same_config d1 d3.
Proof.
  unfold same_config. intros H1 H2.
  destruct H1 as (A1 & A2 & A3 & A4 & A5 & A6 & A7 & A8).
  destruct H2 as (B1 & B2 & B3 & B4 & B5 & B6 & B7 & B8).
  repeat split; congruence.
Qed.

Lemma i2s_run_effect (os : list i2s_op) :
  forall (d : I2SDevice.t) (t : Z) (c : bool),
    (I2SDevice.initialized d = true -> c = true) ->
    same_config d (value (i2s_run os d t))
    /\ driver_use_ok c (calls (i2s_run os d t)) = true.
Proof.
  induction os as [|o os IH]; intros d t c Hc.
  - cbn. unfold same_config. repeat split.
  - rewrite i2s_run_cons_value, i2s_run_cons_calls, driver_use_ok_app.
    destruct (i2s_do_effect o d t c Hc) as (Hs & Hu & Ha & _).
    destruct (IH (value (i2s_do o d t)) (clock_after (i2s_do o d t))
                 (configured_after c (calls (i2s_do o d t))) Ha) as (IHs & IHu).
    split; [exact (same_config_trans _ _ _ Hs IHs)|].
    rewrite Hu, IHu. reflexivity.
Qed.

(** X9. Over any sequence of calls on a device that starts out not
    initialised, the configuration it was built with (type, sample rate,
    channels, bit depth, pins, port) never changes, and every [i2s_read],
    [i2s_write] and driver release is made after a pin set-up with no
    release in between: the driver is never used before [begin] nor after
    [end]. *)
Theorem i2s_run_driver_use (os : list i2s_op) (d : I2SDevice.t) (t : Z)
  (Hd : I2SDevice.initialized d = false) :
  same_config d (value (i2s_run os d t))
  /\ driver_use_ok false (calls (i2s_run os d t)) = true.
Proof.
  apply i2s_run_effect. rewrite Hd. discriminate.
Qed.

(** A sensor switched to RX: a read too early, the life cycle, a read too
    late. *)
Lemma i2s_run_driver_use_witness :
  let d := value (I2SDevice.new I2SDevice.DEVICE_SENSOR 16000 2 16 25 33 32 0 0) in
  let os := [dev_read [] 64 10 (answer_ok [] 1); dev_toggleMode true;
             dev_begin ESP_OK ESP_OK; dev_read [] 64 10 (answer_ok [] 1);
             dev_write 64 10 (answer_ok [] 1); dev_end;
             dev_read [] 64 10 (answer_ok [] 1)] in
  same_config d (value (i2s_run os d 0))
  /\ driver_use_ok false (calls (i2s_run os d 0)) = true.
Proof.
  apply (i2s_run_driver_use
           [dev_read [] 64 10 (answer_ok [] 1); dev_toggleMode true;
            dev_begin ESP_OK ESP_OK; dev_read [] 64 10 (answer_ok [] 1);
            dev_write 64 10 (answer_ok [] 1); dev_end;
            dev_read [] 64 10 (answer_ok [] 1)]
           (value (I2SDevice.new I2SDevice.DEVICE_SENSOR 16000 2 16 25 33 32 0 0)) 0).
  reflexivity.
Defined.

(** X10. Once a device is initialised, nothing but [end] changes it:
    over any calls of [begin], [read], [write] and [toggleMode] the device
    record, and with it the RX/TX mode, stays exactly as it was. *)
Theorem initialized_device_frozen (os : list i2s_op) (d : I2SDevice.t) (t : Z)
  (Hd : I2SDevice.initialized d = true) (Hos : ~ In dev_end os) :
  value (i2s_run os d t) = d.
Proof.
  revert t. induction os as [|o os IH]; intro t; [reflexivity|].
  rewrite i2s_run_cons_value.
  destruct (i2s_do_effect o d t true (fun _ => eq_refl)) as (_ & _ & _ & Hsame).
  rewrite Hsame; [|exact Hd|].
  - apply IH. intro H. apply Hos. now right.
  - intro E. apply Hos. left. now symmetry.
Qed.

(** An initialised microphone asked to switch to TX and to begin again. *)
Lemma initialized_device_frozen_witness :
  let d := I2SDevice.set_initialized
             (value (I2SDevice.new I2SDevice.DEVICE_MIC 16000 1 16 25 33 32 0 0)) true in
  value (i2s_run [dev_toggleMode false; dev_begin ESP_OK ESP_OK;
                  dev_write 64 10 (answer_ok [] 1)] d 0) = d.
Proof.
  apply (initialized_device_frozen
           [dev_toggleMode false; dev_begin ESP_OK ESP_OK;
            dev_write 64 10 (answer_ok [] 1)]
           (I2SDevice.set_initialized
              (value (I2SDevice.new I2SDevice.DEVICE_MIC 16000 1 16 25 33 32 0 0)) true) 0).
  - reflexivity.
  - intros [H|[H|[H|H]]]; try discriminate H. exact H.
Defined.

(* ------------------------------------------------------------------ *)
(** ** sound.h: the samples                                            *)
(* ------------------------------------------------------------------ *)

Lemma int16_of_range (z : Z) : - 2 ^ 15 <= int16_of z < 2 ^ 15.
Proof.
  unfold int16_of.
  pose proof (Z.mod_pos_bound (z + 2 ^ 15) (2 ^ 16) ltac:(lia)). lia.
Qed.

Lemma int16_of_period (z k : Z) : int16_of (z + k * 2 ^ 16) = int16_of z.
Proof.
  unfold int16_of.
  replace (z + k * 2 ^ 16 + 2 ^ 15) with (z + 2 ^ 15 + k * 2 ^ 16) by ring.
  now rewrite Z_mod_plus_full.
Qed.

(** X11. Whatever the 32-bit word, the sample stored for it lies in the
    [int16_t] range and its cast to [float] is exact: no rounding enters
    the arrays before the transform. *)
Theorem sample16_exact (w : Z) :
  - 2 ^ 15 <= sample16 w < 2 ^ 15
  /\ Binary32.cast_exact (sample16 w) = true.
Proof.
  assert (R : - 2 ^ 15 <= sample16 w < 2 ^ 15) by apply int16_of_range.
  split; [exact R | apply sample_cast_exact, R].
Qed.

(** X12. The sample depends on bits 14 to 29 of the word only: adding any
    multiple of 2^30 (so also the sign bit, and reading the word as
    unsigned) changes nothing, and neither does clearing the low 14 bits. *)
Theorem sample16_bits (w k : Z) :
  sample16 (w + k * 2 ^ 30) = sample16 w
  /\ sample16 (w - w mod 2 ^ 14) = sample16 w
  /\ sample16 (w mod 2 ^ 32) = sample16 w.
Proof.
  assert (P : forall j, sample16 (w + j * 2 ^ 30) = sample16 w).
  { intro j. unfold sample16. rewrite !Z.shiftr_div_pow2 by lia.
    replace (w + j * 2 ^ 30) with (w + (j * 2 ^ 16) * 2 ^ 14) by ring.
    rewrite Z.div_add by lia. apply int16_of_period. }
  split; [apply P|]. split.
  - unfold sample16. rewrite !Z.shiftr_div_pow2 by lia. f_equal.
    pose proof (Z.div_mod w (2 ^ 14) ltac:(lia)) as E.
    replace (w - w mod 2 ^ 14) with (w / 2 ^ 14 * 2 ^ 14) by lia.
    apply Z.div_mul. lia.
  - pose proof (Z.div_mod w (2 ^ 32) ltac:(lia)) as E.
    replace (w mod 2 ^ 32) with (w + (- (w / 2 ^ 32) * 4) * 2 ^ 30) by lia.
    apply P.
Qed.

Lemma nth_samples_of (buffer : list Z) (i : nat) :
  (i < SAMPLES)%nat ->
  nth i (samples_of buffer) 0%Q = inject_Z (sample16 (nth i buffer 0)).
Proof.
  intro Hi. unfold samples_of.
  rewrite (nth_indep _ 0%Q (inject_Z (sample16 (nth 0%nat buffer 0))))
    by (rewrite length_map, length_seq; exact Hi).
  rewrite (map_nth (fun j => inject_Z (sample16 (nth j buffer 0)))).
  rewrite seq_nth by exact Hi. reflexivity.
Qed.

Lemma fill_overwrites (buffer : list Z) (re im : list Q) :
  length re = SAMPLES -> length im = SAMPLES ->
  fill buffer (re, im) = (samples_of buffer, repeat 0%Q SAMPLES).
Proof.
  intros Hre Him.
  destruct (fill_spec buffer re im) as (L1 & _ & Hv & _).
  rewrite (surjective_pairing (fill buffer (re, im))). f_equal.
  - apply (nth_ext _ _ 0%Q 0%Q).
    + rewrite L1, Hre. unfold samples_of. now rewrite length_map, length_seq.
    + intros i Hi. rewrite L1, Hre in Hi.
      rewrite Hv by lia. symmetry. now apply nth_samples_of.
  - now apply fill_imag_zero.
Qed.

Lemma loop_arrays fft e g t :
  vReal (value (loop fft e g t)) = fst (spectrum fft (frame e) (vReal g, vImag g))
  /\ vImag (value (loop fft e g t)) = snd (spectrum fft (frame e) (vReal g, vImag g)).
Proof.
  pose proof (loop_result fft e g t) as L. cbv zeta in L. rewrite L.
  now destruct (frame_isSnap fft (frame e) g).
Qed.

(** X13. A pass overwrites both arrays completely, so nothing an earlier
    pass left in them reaches the transform: the arrays handed to the FFT,
    the verdict and the arrays left behind are the same from any two
    states whose arrays have [SAMPLES] elements. *)
Theorem pass_forgets_arrays (fft : ArduinoFFT) (e : cycle) (g g' : globals) (t t' : Z)
  (Hre : length (vReal g) = SAMPLES) (Him : length (vImag g) = SAMPLES)
  (Hre' : length (vReal g') = SAMPLES) (Him' : length (vImag g') = SAMPLES) :
  fill (frame e) (vReal g, vImag g) = (samples_of (frame e), repeat 0%Q SAMPLES)
  /\ frame_isSnap fft (frame e) g = frame_isSnap fft (frame e) g'
  /\ vReal (value (loop fft e g t)) = vReal (value (loop fft e g' t'))
  /\ vImag (value (loop fft e g t)) = vImag (value (loop fft e g' t')).
Proof.
  pose proof (fill_overwrites (frame e) _ _ Hre Him) as F.
  pose proof (fill_overwrites (frame e) _ _ Hre' Him') as F'.
  assert (Hsp : spectrum fft (frame e) (vReal g, vImag g)
                = spectrum fft (frame e) (vReal g', vImag g')).
  { unfold spectrum. now rewrite F, F'. }
  split; [exact F|]. split.
  - unfold frame_isSnap, frame_peak. now rewrite Hsp.
  - destruct (loop_arrays fft e g t) as [A1 A2].
    destruct (loop_arrays fft e g' t') as [B1 B2].
    rewrite A1, A2, B1, B2, Hsp. split; reflexivity.
Qed.

(** The loud frame at start-up and in the middle of a run. *)
Lemma pass_forgets_arrays_witness :
  fill (frame loud_cycle) (vReal boot, vImag boot)
  = (samples_of (frame loud_cycle), repeat 0%Q SAMPLES)
  /\ frame_isSnap plain_fft (frame loud_cycle) boot
     = frame_isSnap plain_fft (frame loud_cycle) later_globals
  /\ vReal (value (loop plain_fft loud_cycle boot 0))
     = vReal (value (loop plain_fft loud_cycle later_globals 5000))
  /\ vImag (value (loop plain_fft loud_cycle boot 0))
     = vImag (value (loop plain_fft loud_cycle later_globals 5000)).
Proof.
  apply (pass_forgets_arrays plain_fft loud_cycle boot later_globals 0 5000);
    reflexivity.
Defined.

(* ------------------------------------------------------------------ *)
(** ** sound.h: the band in bins                                       *)
(* ------------------------------------------------------------------ *)

Lemma bin_width_value :
  (inject_Z SAMPLE_RATE / inject_Z (Z.of_nat SAMPLES) == 125 # 4)%Q.
Proof. reflexivity. Qed.

Lemma isSnap_bins (k : nat) (p : Q) :
  isSnap (dominantFreq k) p = bin_in_band k && Qgtb p (inject_Z 6000).
Proof.
  apply Bool.eq_true_iff_eq.
  rewrite isSnap_iff, Bool.andb_true_iff, Qgtb_iff.
  unfold bin_in_band. rewrite Bool.andb_true_iff, !Nat.leb_le.
  unfold dominantFreq. rewrite bin_width_value.
  change (inject_Z 6000) with 6000%Q.
  assert (L : (2000 < inject_Z (Z.of_nat k) * (125 # 4))%Q <-> (65 <= k)%nat).
  { split; intro H.
    - assert (H' : (inject_Z 64 < inject_Z (Z.of_nat k))%Q)
        by (change (inject_Z 64) with 64%Q; lra).
      rewrite <- Zlt_Qlt in H'. lia.
    - assert (H' : (inject_Z 64 < inject_Z (Z.of_nat k))%Q)
        by (rewrite <- Zlt_Qlt; lia).
      change (inject_Z 64) with 64%Q in H'. lra. }
  assert (U : (inject_Z (Z.of_nat k) * (125 # 4) < 5000)%Q <-> (k <= 159)%nat).
  { split; intro H.
    - assert (H' : (inject_Z (Z.of_nat k) < inject_Z 160)%Q)
        by (change (inject_Z 160) with 160%Q; lra).
      rewrite <- Zlt_Qlt in H'. lia.
    - assert (H' : (inject_Z (Z.of_nat k) < inject_Z 160)%Q)
        by (rewrite <- Zlt_Qlt; lia).
      change (inject_Z 160) with 160%Q in H'. lra. }
  rewrite L, U. tauto.
Qed.

(** X14. In terms of bins: the classifier accepts a peak exactly when its
    bin is one of 65 to 159 and its magnitude exceeds 6000, and a pass
    drives the relay exactly then.  The silent result, bin 0, and the bins
    from 160 up never fire. *)
Theorem pass_fires_in_band (fft : ArduinoFFT) (e : cycle) (g : globals) (t : Z) :
  (forall (k : nat) (p : Q),
      isSnap (dominantFreq k) p = bin_in_band k && Qgtb p (inject_Z 6000))
  /\ fired (calls (loop fft e g t))
     = bin_in_band (snd (frame_peak fft (frame e) g))
       && Qgtb (fst (frame_peak fft (frame e) g)) (inject_Z 6000)
  /\ (snd (frame_peak fft (frame e) g) < SAMPLES / 2)%nat.
Proof.
  split; [exact isSnap_bins|]. split.
  - rewrite loop_fired, frame_isSnap_pair. apply isSnap_bins.
  - apply find_peak_bin_bound.
Qed.

(* ------------------------------------------------------------------ *)
(** ** sound.h: what a run leaves behind                               *)
(* ------------------------------------------------------------------ *)

Lemma loop_relay fft e g t :
  relay (value (loop fft e g t)) =
  if frame_isSnap fft (frame e) g
  then Relay.set_state (relay g) (negb (Relay.state (relay g)))
  else relay g.
Proof.
  pose proof (loop_result fft e g t) as L. cbv zeta in L. rewrite L.
  destruct (frame_isSnap fft (frame e) g); [|reflexivity].
  cbn [value fst relay]. apply toggle_value.
Qed.

Lemma loop_snapCount fft e g t :
  snapCount (value (loop fft e g t)) =
  if frame_isSnap fft (frame e) g then 0 else snapCount g.
Proof.
  pose proof (loop_result fft e g t) as L. cbv zeta in L. rewrite L.
  now destruct (frame_isSnap fft (frame e) g).
Qed.

Lemma run_cons_value fft e es g t :
  value (run fft (e :: es) g t) =
  value (run fft es (value (loop fft e g t)) (clock_after (loop fft e g t))).
Proof. cbn [run]. apply value_bind. Qed.

(** X15. After any run, the relay's recorded state is its state before the
    run flipped once per trigger; its pin and polarity are unchanged, and
    there is at most one trigger per pass. *)
Theorem run_relay_parity (fft : ArduinoFFT) (es : list cycle) (g : globals) (t : Z) :
  let res := run fft es g t in
  let n := length (trigger_times (calls res)) in
  Relay.getState (relay (value res)) = flipped n (Relay.getState (relay g))
  /\ Relay.getPin (relay (value res)) = Relay.getPin (relay g)
  /\ Relay.invertLogic (relay (value res)) = Relay.invertLogic (relay g)
  /\ (n <= length es)%nat.
Proof.
  cbv zeta. unfold trigger_times, Relay.getState, Relay.getPin. revert g t.
  induction es as [|e es IH]; intros g t; [repeat split; cbn; lia|].
  rewrite run_cons_value, run_cons_calls, write_times_app, length_app.
  rewrite loop_write_times.
  destruct (IH (value (loop fft e g t)) (clock_after (loop fft e g t)))
    as (Hs & Hp & Hi & Hn).
  rewrite Hs, Hp, Hi, loop_relay.
  destruct (frame_isSnap fft (frame e) g); cbn [length Nat.add Relay.set_state
    Relay.state Relay.pin Relay.invertLogic].
  - rewrite flipped_succ. repeat split. lia.
  - repeat split. lia.
Qed.

Lemma fired_app (a b : list event) :
  fired (a ++ b) = fired a || fired b.
Proof.
  unfold fired, trigger_times. rewrite write_times_app.
  destruct (write_times a); [cbn; now destruct (write_times b) | reflexivity].
Qed.

(** X16. A run never writes [lastSnapTime], and it leaves [snapCount] at 0
    if the relay was driven at least once and untouched otherwise: the two
    variables kept for telling double snaps play no part. *)
Theorem run_counters (fft : ArduinoFFT) (es : list cycle) (g : globals) (t : Z) :
  let res := run fft es g t in
  lastSnapTime (value res) = lastSnapTime g
  /\ snapCount (value res) = (if fired (calls res) then 0 else snapCount g).
Proof.
  cbv zeta. revert g t.
  induction es as [|e es IH]; intros g t; [split; reflexivity|].
  rewrite run_cons_value, run_cons_calls, fired_app, loop_fired.
  destruct (IH (value (loop fft e g t)) (clock_after (loop fft e g t))) as (Hl & Hc).
  rewrite Hl, Hc, loop_lastSnapTime, loop_snapCount.
  split; [reflexivity|].
  destruct (frame_isSnap fft (frame e) g); cbn [orb]; [|reflexivity].
  now destruct (fired _).
Qed.

(** X17. The time a run takes is the time spent waiting for frames and
    computing, plus 20 ms per pass, plus 300 ms per trigger. *)
Theorem run_duration (fft : ArduinoFFT) (es : list cycle) (g : globals) (t : Z) :
  let res := run fft es g t in
  clock_after res
  = t + outside_time es
    + 20 * Z.of_nat (length es)
    + 300 * Z.of_nat (length (trigger_times (calls res))).
Proof.
  cbv zeta. unfold trigger_times. revert g t.
  induction es as [|e es IH]; intros g t; [cbn; lia|].
  rewrite run_cons_clock, run_cons_calls, write_times_app, length_app.
  rewrite IH, loop_clock, loop_write_times.
  cbn [outside_time length].
  destruct (frame_isSnap fft (frame e) g); cbn [length]; lia.
Qed.

Lemma loop_pin_level fft e g t :
  pin_level (Relay.pin (relay g)) (calls (loop fft e g t)) =
  if frame_isSnap fft (frame e) g
  then Some (Relay.drive_level (relay g) (negb (Relay.state (relay g))))
  else None.
Proof.
  pose proof (loop_calls fft e g t) as L. cbv zeta in L. rewrite L.
  rewrite !pin_level_app. cbn [pin_level].
  destruct (frame_isSnap fft (frame e) g); [|reflexivity].
  unfold snap_branch. cbn [pin_level].
  rewrite pin_level_app, toggle_pin_level. reflexivity.
Qed.

Lemma run_not_fired fft es :
  forall g t,
    fired (calls (run fft es g t)) = false ->
    relay (value (run fft es g t)) = relay g.
Proof.
  induction es as [|e es IH]; intros g t H; [reflexivity|].
  rewrite run_cons_calls, fired_app, loop_fired in H.
  apply Bool.orb_false_iff in H. destruct H as [H1 H2].
  rewrite run_cons_value, (IH _ _ H2), loop_relay, H1. reflexivity.
Qed.

Lemma run_pin_level fft es :
  forall g t,
    pin_level (Relay.pin (relay g)) (calls (run fft es g t)) =
    if fired (calls (run fft es g t))
    then Some (Relay.drive_level (relay g)
                 (Relay.state (relay (value (run fft es g t)))))
    else None.
Proof.
  induction es as [|e es IH]; intros g t; [reflexivity|].
  rewrite run_cons_value, run_cons_calls, fired_app, pin_level_app, loop_fired.
  specialize (IH (value (loop fft e g t)) (clock_after (loop fft e g t))).
  pose proof (run_not_fired fft es (value (loop fft e g t))
                (clock_after (loop fft e g t))) as K.
  rewrite loop_relay in IH, K. rewrite loop_pin_level.
  destruct (frame_isSnap fft (frame e) g);
    cbn [Relay.set_state Relay.pin Relay.state orb] in IH, K |- *.
  - rewrite IH. destruct (fired _).
    + reflexivity.
    + rewrite (K eq_refl). reflexivity.
  - rewrite IH. now destruct (fired _).
Qed.

(** X18. From start-up on, the pin agrees with the record: after [setup()]
    the relay is recorded off and its pin is at the off level, and after
    [setup()] and any run the pin is at the level of the state the relay
    then records. *)
Theorem setup_run_pin_consistent (fft : ArduinoFFT) (es : list cycle)
  (g : globals) (t : Z) :
  let s := setup g t in
  let res := run fft es (value s) (clock_after s) in
  Relay.getState (relay (value s)) = false
  /\ pin_level (Relay.getPin (relay g)) (calls s)
     = Some (Relay.drive_level (relay g) false)
  /\ pin_level (Relay.getPin (relay g)) (calls s ++ calls res)
     = Some (Relay.drive_level (relay g) (Relay.getState (relay (value res)))).
Proof.
  cbv zeta. unfold Relay.getState, Relay.getPin.
  assert (Hs : relay (value (setup g t)) = Relay.set_state (relay g) false)
    by reflexivity.
  assert (Hl : pin_level (Relay.pin (relay g)) (calls (setup g t))
               = Some (Relay.drive_level (relay g) false)).
  { destruct g as [[p st i] re im ls sc]. cbn. rewrite Z.eqb_refl.
    now destruct i. }
  split; [now rewrite Hs|]. split; [exact Hl|].
  rewrite pin_level_app.
  pose proof (run_pin_level fft es (value (setup g t)) (clock_after (setup g t))) as P.
  pose proof (run_not_fired fft es (value (setup g t)) (clock_after (setup g t))) as K.
  rewrite Hs in P, K. cbn [Relay.set_state Relay.pin] in P.
  rewrite P. destruct (fired _).
  - reflexivity.
  - rewrite (K eq_refl), Hl. reflexivity.
Qed.

(** A spectrum with magnitude 8000 at bin 96 and zeros elsewhere. *)
Lemma verdict_refines_witness :
  let v := map Binary32.of_int (frame_with 96 8000) in
  Binary32.verdict v
  = isSnap (dominantFreq (snd (find_peak (map Binary32.val v))))
           (fst (find_peak (map Binary32.val v))).
Proof.
  apply (verdict_refines (map Binary32.of_int (frame_with 96 8000))).
  apply Forall_forall. apply (proj1 (forallb_forall _ _)).
  vm_compute. reflexivity.
Defined.

(* ------------------------------------------------------------------ *)
(** ** ServoMotor                                                      *)
(* ------------------------------------------------------------------ *)

Section Servo.
Import ServoMotor.

Lemma clamp_closed (s : t) (a : Z) :
  clamp s a = if maxAngle s <? minAngle s then maxAngle s
              else Z.max (minAngle s) (Z.min a (maxAngle s)).
Proof.
  unfold clamp.
  destruct (Z.ltb_spec a (minAngle s)); destruct (Z.ltb_spec (maxAngle s) (minAngle s));
    rewrite ?Z.gtb_ltb;
    repeat match goal with
           | |- context [?x <? ?y] => destruct (Z.ltb_spec x y)
           end; lia.
Qed.

Lemma clamp_in_range (s : t) (a : Z) :
  minAngle s <= maxAngle s -> minAngle s <= clamp s a <= maxAngle s.
Proof.
  intro H. rewrite clamp_closed.
  destruct (Z.ltb_spec (maxAngle s) (minAngle s)); lia.
Qed.

Lemma clamp_fixed (s : t) (a : Z) :
  minAngle s <= a <= maxAngle s -> clamp s a = a.
Proof.
  intro H. rewrite clamp_closed.
  destruct (Z.ltb_spec (maxAngle s) (minAngle s)); lia.
Qed.

(** X20. [moveTo] sends the servo to the requested angle brought into the
    range: the angle itself when it lies inside, the nearer end otherwise;
    with a range given the wrong way round ([maxAngle < minAngle]) it
    always sends it to [maxAngle].  The angle written is the angle
    recorded, and the range and pin are untouched. *)
Theorem moveTo_clamps (s : t) (a : Z) :
  let s' := fst (moveTo s a) in
  getAngle s' = (if maxAngle s <? minAngle s then maxAngle s
                 else Z.max (minAngle s) (Z.min a (maxAngle s)))
  /\ written (snd (moveTo s a)) = [getAngle s']
  /\ waited (snd (moveTo s a)) = 500
  /\ minAngle s' = minAngle s /\ maxAngle s' = maxAngle s /\ pin s' = pin s.
Proof.
  cbv zeta. unfold moveTo, getAngle. cbn. rewrite clamp_closed.
  repeat split.
Qed.

Lemma set_angle_current (s : t) : set_angle s (currentAngle s) = s.
Proof. now destruct s. Qed.

Lemma set_angle_twice (s : t) (a b : Z) : set_angle (set_angle s a) b = set_angle s b.
Proof. reflexivity. Qed.

(** The calls of the loop of [smoothMoveTo] over the angles [l]: each
    angle written, then the wait. *)
Lemma written_flat_map (stepDelay : Z) (l : list Z) :
  written (flat_map (fun a => [write a; delay_ms (stepDelay mod 2 ^ 32)]) l) = l
  /\ waited (flat_map (fun a => [write a; delay_ms (stepDelay mod 2 ^ 32)]) l)
     = Z.of_nat (length l) * (stepDelay mod 2 ^ 32).
Proof.
  induction l as [|a l [IHw IHd]]; [split; reflexivity|].
  cbn [flat_map app written waited length]. rewrite IHw, IHd. split; [reflexivity|lia].
Qed.

(** The loop of [smoothMoveTo], [n] steps away from its target. *)
Lemma smooth_steps_reach (step stepDelay : Z) (n : nat) :
  step <> 0 ->
  forall (fuel : nat) (s : t),
    (n <= fuel)%nat ->
    smooth_steps fuel s (currentAngle s + Z.of_nat n * step) step stepDelay
    = Some (set_angle s (currentAngle s + Z.of_nat n * step),
            flat_map (fun a => [write a; delay_ms (stepDelay mod 2 ^ 32)])
                     (ramp n (currentAngle s) step)).
Proof.
  intro Hstep. induction n as [|n IH]; intros fuel s Hfuel.
  - replace (currentAngle s + Z.of_nat 0 * step) with (currentAngle s) by lia.
    destruct fuel; cbn [smooth_steps]; rewrite Z.eqb_refl, set_angle_current;
      reflexivity.
  - destruct fuel as [|fuel]; [lia|].
    cbn [smooth_steps].
    replace (currentAngle s =? currentAngle s + Z.of_nat (S n) * step) with false
      by (symmetry; apply Z.eqb_neq; nia).
    pose proof (IH fuel (set_angle s (currentAngle s + step)) ltac:(lia)) as E.
    cbn [currentAngle set_angle] in E.
    replace (currentAngle s + step + Z.of_nat n * step)
      with (currentAngle s + Z.of_nat (S n) * step) in E by lia.
    rewrite E. reflexivity.
Qed.

Lemma length_ramp (n : nat) (from step : Z) : length (ramp n from step) = n.
Proof.
  revert from. induction n as [|n IH]; intro from; cbn; [reflexivity|].
  now rewrite IH.
Qed.

Lemma smoothMoveTo_reach (fuel : nat) (s : t) (targetAngle stepDelay : Z) :
  (distance s targetAngle <= fuel)%nat ->
  smoothMoveTo fuel s targetAngle stepDelay
  = Some (set_angle s (clamp s targetAngle),
          flat_map (fun a => [write a; delay_ms (stepDelay mod 2 ^ 32)])
                   (ramp (distance s targetAngle) (currentAngle s)
                         (if clamp s targetAngle >? currentAngle s then 1 else -1))).
Proof.
  intro Hfuel. unfold smoothMoveTo, distance in *.
  set (target := clamp s targetAngle) in *.
  set (n := Z.to_nat (Z.abs (target - currentAngle s))) in *.
  assert (Hn : Z.of_nat n = Z.abs (target - currentAngle s)) by lia.
  rewrite Z.gtb_ltb.
  destruct (Z.ltb_spec (currentAngle s) target) as [Hlt|Hge].
  - pose proof (smooth_steps_reach 1 stepDelay n ltac:(lia) fuel s Hfuel) as E.
    replace (currentAngle s + Z.of_nat n * 1) with target in E by lia.
    exact E.
  - pose proof (smooth_steps_reach (-1) stepDelay n ltac:(lia) fuel s Hfuel) as E.
    replace (currentAngle s + Z.of_nat n * -1) with target in E by lia.
    exact E.
Qed.

(** X21. [smoothMoveTo] ends: after as many rounds as the current angle is
    away from the target brought into the range, the servo records that
    target.  Its calls are, for every angle on the way in turn, one degree
    after the other and the target last, the write of that angle followed
    by a [delay] of [stepDelay] (as the [unsigned long] it is converted
    to), and nothing else. *)
Theorem smoothMoveTo_steps (fuel : nat) (s : t) (targetAngle stepDelay : Z)
  (Hfuel : (distance s targetAngle <= fuel)%nat) :
  let target := clamp s targetAngle in
  let step := if target >? currentAngle s then 1 else -1 in
  let way := ramp (distance s targetAngle) (currentAngle s) step in
  let cs := flat_map (fun a => [write a; delay_ms (stepDelay mod 2 ^ 32)]) way in
  smoothMoveTo fuel s targetAngle stepDelay = Some (set_angle s target, cs)
  /\ written cs = way
  /\ length way = distance s targetAngle
  /\ waited cs = Z.of_nat (distance s targetAngle) * (stepDelay mod 2 ^ 32).
Proof.
  cbv zeta.
  split; [exact (smoothMoveTo_reach fuel s targetAngle stepDelay Hfuel)|].
  destruct (written_flat_map stepDelay
              (ramp (distance s targetAngle) (currentAngle s)
                    (if clamp s targetAngle >? currentAngle s then 1 else -1)))
    as [W D].
  rewrite length_ramp in D.
  split; [exact W|]. split; [apply length_ramp | exact D].
Qed.

(** From 90 degrees down to 10 in a 0..180 range. *)
Lemma smoothMoveTo_steps_witness :
  let s := new 18 0 180 in
  let target := clamp s 10 in
  let step := if target >? currentAngle s then 1 else -1 in
  let way := ramp (distance s 10) (currentAngle s) step in
  let cs := flat_map (fun a => [write a; delay_ms (15 mod 2 ^ 32)]) way in
  smoothMoveTo 80 s 10 15 = Some (set_angle s target, cs)
  /\ written cs = way
  /\ length way = distance s 10
  /\ waited cs = Z.of_nat (distance s 10) * (15 mod 2 ^ 32).
Proof.
  apply (smoothMoveTo_steps 80 (new 18 0 180) 10 15).
  vm_compute. lia.
Defined.

(** [int_of] keeps the low 32 bits: its result is an [int], and it does
    not see multiples of 2^32. *)
Lemma int_of_wraps (z k : Z) :
  - 2 ^ 31 <= int_of z < 2 ^ 31 /\ int_of (z + k * 2 ^ 32) = int_of z.
Proof.
  unfold int_of. split.
  - pose proof (Z.mod_pos_bound (z + 2 ^ 31) (2 ^ 32) ltac:(lia)). lia.
  - replace (z + k * 2 ^ 32 + 2 ^ 31) with (z + 2 ^ 31 + k * 2 ^ 32) by ring.
    now rewrite Z_mod_plus_full.
Qed.

Lemma int_of_fits (z : Z) : - 2 ^ 31 <= z < 2 ^ 31 -> int_of z = z.
Proof.
  intro H. unfold int_of. rewrite Z.mod_small; lia.
Qed.

Lemma middle_in_range (lo hi : Z) :
  lo <= hi -> sum_fits lo hi -> lo <= middle lo hi <= hi.
Proof.
  intros H F. unfold middle. rewrite (int_of_fits _ F).
  pose proof (Z.quot_rem' (lo + hi) 2) as E.
  pose proof (Z.rem_bound_abs (lo + hi) 2 ltac:(lia)) as B.
  lia.
Qed.

Lemma ramp_up (n : nat) :
  forall from a, In a (ramp n from 1) -> from < a <= from + Z.of_nat n.
Proof.
  induction n as [|n IH]; intros from a Ha; [destruct Ha|].
  cbn [ramp] in Ha. destruct Ha as [<-|Ha]; [lia|].
  specialize (IH _ _ Ha). lia.
Qed.

Lemma ramp_down (n : nat) :
  forall from a, In a (ramp n from (-1)) -> from - Z.of_nat n <= a < from.
Proof.
  induction n as [|n IH]; intros from a Ha; [destruct Ha|].
  cbn [ramp] in Ha. destruct Ha as [<-|Ha]; [lia|].
  specialize (IH _ _ Ha). lia.
Qed.

Lemma written_app (a b : list servo_call) :
  written (a ++ b) = written a ++ written b.
Proof.
  induction a as [|c a IH]; [reflexivity|].
  destruct c; cbn; now rewrite IH.
Qed.

Lemma servo_kept_refl (s : t) : in_range s -> servo_kept s s [].
Proof. intro H. unfold servo_kept. cbn. repeat split; try apply H. constructor. Qed.

Lemma servo_kept_trans (s s1 s2 : t) (c1 c2 : list servo_call) :
  servo_kept s s1 c1 -> servo_kept s1 s2 c2 -> servo_kept s s2 (c1 ++ c2).
Proof.
  intros (P1 & L1 & H1 & R1 & W1) (P2 & L2 & H2 & R2 & W2).
  rewrite L1, H1 in W2.
  unfold servo_kept. rewrite written_app.
  repeat split; try congruence; try apply R2.
  apply Forall_app. split; assumption.
Qed.

Lemma smoothMoveTo_kept (fuel : nat) (s : t) (targetAngle stepDelay : Z) :
  minAngle s <= maxAngle s -> in_range s ->
  (Z.to_nat (maxAngle s - minAngle s) <= fuel)%nat ->
  exists cs,
    smoothMoveTo fuel s targetAngle stepDelay
    = Some (set_angle s (clamp s targetAngle), cs)
    /\ servo_kept s (set_angle s (clamp s targetAngle)) cs.
Proof.
  intros Hr Hin Hfuel.
  pose proof (clamp_in_range s targetAngle Hr) as Hc.
  unfold in_range in Hin.
  assert (Hd : (distance s targetAngle <= fuel)%nat) by (unfold distance; lia).
  eexists. split; [exact (smoothMoveTo_reach fuel s targetAngle stepDelay Hd)|].
  unfold servo_kept, in_range. cbn [pin minAngle maxAngle currentAngle set_angle].
  repeat split; try apply Hc.
  rewrite (proj1 (written_flat_map stepDelay _)).
  apply Forall_forall. intros a Ha.
  rewrite Z.gtb_ltb in Ha. unfold distance in Ha.
  destruct (Z.ltb_spec (currentAngle s) (clamp s targetAngle)) as [Hlt|Hge].
  - apply ramp_up in Ha. lia.
  - apply ramp_down in Ha. lia.
Qed.

Lemma sweep_kept (fuel : nat) (s : t) (sweepDelay : Z) :
  minAngle s <= maxAngle s -> in_range s ->
  (Z.to_nat (maxAngle s - minAngle s) <= fuel)%nat ->
  exists cs,
    sweep fuel s sweepDelay = Some (set_angle s (minAngle s), cs)
    /\ servo_kept s (set_angle s (minAngle s)) cs.
Proof.
  intros Hr Hin Hfuel. unfold sweep.
  destruct (smoothMoveTo_kept fuel s (maxAngle s) sweepDelay Hr Hin Hfuel)
    as (c1 & E1 & K1).
  rewrite E1.
  pose proof K1 as (_ & _ & _ & Hin1 & _).
  destruct (smoothMoveTo_kept fuel (set_angle s (clamp s (maxAngle s)))
              (minAngle s) sweepDelay Hr Hin1 Hfuel) as (c2 & E2 & K2).
  cbn [minAngle set_angle]. rewrite E2.
  rewrite set_angle_twice in E2, K2 |- *.
  assert (Hm : clamp (set_angle s (clamp s (maxAngle s))) (minAngle s) = minAngle s).
  { apply clamp_fixed. cbn. lia. }
  rewrite Hm in *.
  exists (c1 ++ c2). split; [reflexivity|].
  exact (servo_kept_trans _ _ _ _ _ K1 K2).
Qed.

Lemma sweeps_kept (fuel : nat) (sweepDelay : Z) (n : nat) :
  forall s,
    minAngle s <= maxAngle s -> in_range s ->
    (Z.to_nat (maxAngle s - minAngle s) <= fuel)%nat ->
    exists s' cs,
      sweeps n fuel s sweepDelay = Some (s', cs) /\ servo_kept s s' cs.
Proof.
  induction n as [|n IH]; intros s Hr Hin Hfuel.
  - exists s, []. split; [reflexivity | now apply servo_kept_refl].
  - cbn [sweeps].
    destruct (sweep_kept fuel s sweepDelay Hr Hin Hfuel) as (c1 & E1 & K1).
    rewrite E1.
    pose proof K1 as (_ & L1 & H1 & Hin1 & _).
    destruct (IH (set_angle s (minAngle s))) as (s2 & c2 & E2 & K2);
      [exact Hr | exact Hin1 | exact Hfuel |].
    rewrite E2. exists s2, (c1 ++ c2). split; [reflexivity|].
    exact (servo_kept_trans _ _ _ _ _ K1 K2).
Qed.

Lemma sweepTimes_kept (fuel : nat) (s : t) (times sweepDelay : Z) :
  minAngle s <= maxAngle s -> sum_fits (minAngle s) (maxAngle s) ->
  in_range s ->
  (Z.to_nat (maxAngle s - minAngle s) <= fuel)%nat ->
  exists s' cs,
    sweepTimes fuel s times sweepDelay = Some (s', cs)
    /\ currentAngle s' = Z.quot (minAngle s + maxAngle s) 2
    /\ servo_kept s s' cs.
Proof.
  intros Hr Hsum Hin Hfuel. unfold sweepTimes.
  destruct (sweeps_kept fuel sweepDelay (Z.to_nat times) s Hr Hin Hfuel)
    as (s1 & c1 & E1 & K1).
  rewrite E1.
  pose proof K1 as (_ & L1 & H1 & Hin1 & _).
  destruct (smoothMoveTo_kept fuel s1 (middle (minAngle s1) (maxAngle s1))
              sweepDelay) as (c2 & E2 & K2);
    [rewrite L1, H1; exact Hr | exact Hin1 | rewrite L1, H1; exact Hfuel |].
  rewrite E2.
  eexists _, (c1 ++ c2). split; [reflexivity|]. split.
  - cbn [currentAngle set_angle]. rewrite L1, H1.
    rewrite clamp_fixed by (rewrite L1, H1; now apply middle_in_range).
    unfold middle. now rewrite (int_of_fits _ Hsum).
  - exact (servo_kept_trans _ _ _ _ _ K1 K2).
Qed.



Lemma servo_do_kept (fuel : nat) (o : servo_op) (s : t) :
  minAngle s <= maxAngle s -> sum_fits (minAngle s) (maxAngle s) ->
  in_range s ->
  (Z.to_nat (maxAngle s - minAngle s) <= fuel)%nat ->
  exists s' cs, servo_do fuel o s = Some (s', cs) /\ servo_kept s s' cs.
Proof.
  intros Hr Hsum Hin Hfuel.
  destruct o as [|a|a d|d|n d| |]; cbn [servo_do].
  - eexists _, _. split; [reflexivity|].
    unfold servo_kept. cbn. repeat split; try apply Hin.
    constructor; [exact Hin | constructor].
  - eexists _, _. split; [reflexivity|].
    pose proof (clamp_in_range s a Hr) as Hc.
    unfold servo_kept, in_range. cbn. repeat split; try apply Hc.
    constructor; [exact Hc | constructor].
  - destruct (smoothMoveTo_kept fuel s a d Hr Hin Hfuel) as (cs & E & K). eauto.
  - destruct (sweep_kept fuel s d Hr Hin Hfuel) as (cs & E & K). eauto.
  - destruct (sweepTimes_kept fuel s n d Hr Hsum Hin Hfuel)
      as (s' & cs & E & _ & K). eauto.
  - eexists _, _. split; [reflexivity|].
    unfold servo_kept. cbn. repeat split; try apply Hin. constructor.
  - eexists _, _. split; [reflexivity|].
    unfold servo_kept. cbn. repeat split; try apply Hin.
    constructor; [exact Hin | constructor].
Qed.

Lemma servo_run_kept (fuel : nat) (os : list servo_op) :
  forall s,
    minAngle s <= maxAngle s -> sum_fits (minAngle s) (maxAngle s) ->
    in_range s ->
    (Z.to_nat (maxAngle s - minAngle s) <= fuel)%nat ->
    exists s' cs, servo_run fuel os s = Some (s', cs) /\ servo_kept s s' cs.
Proof.
  induction os as [|o os IH]; intros s Hr Hsum Hin Hfuel.
  - exists s, []. split; [reflexivity | now apply servo_kept_refl].
  - cbn [servo_run].
    destruct (servo_do_kept fuel o s Hr Hsum Hin Hfuel) as (s1 & c1 & E1 & K1).
    rewrite E1.
    pose proof K1 as (_ & L1 & H1 & Hin1 & _).
    destruct (IH s1) as (s2 & c2 & E2 & K2);
      [rewrite L1, H1; exact Hr | rewrite L1, H1; exact Hsum | exact Hin1
       | rewrite L1, H1; exact Hfuel |].
    rewrite E2. exists s2, (c1 ++ c2). split; [reflexivity|].
    exact (servo_kept_trans _ _ _ _ _ K1 K2).
Qed.

(** X23. A servo constructed with [minA <= maxA] whose sum fits an [int]
    starts at [(minA + maxA) / 2], inside its range, and every sequence of
    calls on it ends (each loop within [maxA - minA] rounds), keeps its pin
    and range, leaves its angle inside the range and writes to the servo
    only angles of the range. *)
Theorem servo_stays_in_range (fuel : nat) (os : list servo_op)
  (servoPin minA maxA : Z)
  (Hr : minA <= maxA) (Hsum : - 2 ^ 31 <= minA + maxA < 2 ^ 31)
  (Hfuel : (Z.to_nat (maxA - minA) <= fuel)%nat) :
  getAngle (new servoPin minA maxA) = Z.quot (minA + maxA) 2
  /\ in_range (new servoPin minA maxA)
  /\ exists s' cs,
       servo_run fuel os (new servoPin minA maxA) = Some (s', cs)
       /\ servo_kept (new servoPin minA maxA) s' cs.
Proof.
  assert (Hin : in_range (new servoPin minA maxA)).
  { unfold in_range. cbn. now apply middle_in_range. }
  split; [unfold getAngle, new, middle; cbn; now rewrite (int_of_fits _ Hsum)|].
  split; [exact Hin|].
  now apply servo_run_kept.
Qed.

(** The default range, through a begin, a move out of range, a sweep and
    a smooth move. *)
Lemma servo_stays_in_range_witness :
  getAngle (new 18 0 180) = Z.quot (0 + 180) 2
  /\ in_range (new 18 0 180)
  /\ exists s' cs,
       servo_run 180 [servo_begin; servo_moveTo 200; servo_sweepTimes 1 10;
                      servo_smoothMoveTo (-30) 10; servo_reattach]
         (new 18 0 180) = Some (s', cs)
       /\ servo_kept (new 18 0 180) s' cs.
Proof.
  apply (servo_stays_in_range 180
           [servo_begin; servo_moveTo 200; servo_sweepTimes 1 10;
            servo_smoothMoveTo (-30) 10; servo_reattach] 18 0 180).
  - lia.
  - lia.
  - vm_compute. lia.
Defined.

End Servo.

(* ------------------------------------------------------------------ *)
(** ** sound.h: what the scan looks at                                 *)
(* ------------------------------------------------------------------ *)

Lemma scan_agrees_on (v v' : list Q) (l : list nat) :
  (forall i, In i l -> nth i v 0%Q = nth i v' 0%Q) ->
  forall acc, fold_left (scan_step v) l acc = fold_left (scan_step v') l acc.
Proof.
  induction l as [|i l IH]; intros H acc; [reflexivity|].
  cbn [fold_left]. unfold scan_step at 2 4.
  rewrite (H i (or_introl eq_refl)).
  apply IH. intros j Hj. apply H. now right.
Qed.

(** X24. The scan never looks at bin 0 nor at the bins from [SAMPLES / 2]
    up: two spectra that agree on bins 1 to [SAMPLES / 2 - 1] give the same
    peak and the same bin, whatever the direct component and the mirrored
    half hold. *)
Theorem find_peak_ignores_outside (v v' : list Q)
  (H : forall j, (1 <= j < SAMPLES / 2)%nat -> nth j v 0%Q = nth j v' 0%Q) :
  find_peak v = find_peak v'.
Proof.
  unfold find_peak. apply scan_agrees_on.
  intros i Hi. apply in_seq in Hi. apply H.
  rewrite half_SAMPLES. lia.
Qed.

(** A spectrum and the same with a huge direct component and a huge
    mirrored bin. *)
Lemma find_peak_ignores_outside_witness :
  let v := map inject_Z (frame_with 96 8000) in
  find_peak v = find_peak (store 0 (inject_Z 99999) (store 300 (inject_Z 99999) v)).
Proof.
  apply (find_peak_ignores_outside
           (map inject_Z (frame_with 96 8000))
           (store 0 (inject_Z 99999)
              (store 300 (inject_Z 99999) (map inject_Z (frame_with 96 8000))))).
  intros j Hj. change (SAMPLES / 2)%nat with 256%nat in Hj.
  rewrite !nth_store_other by lia. reflexivity.
Defined.
